(** * CryptaPixelon: the pixel-transform engine and the image analyzer

    A shallow embedding of [src/CryptaPixelon.py]:
    - [encrypt_image_from_array] and [decrypt_image_from_array]
      (the five keyed pixel transforms, lines 127-170);
    - [ImageAnalyzer.analyze_image], [ImageAnalyzer.recommend_method] and
      [ImageAnalyzer.generate_smart_key] (lines 26-80).

    NumPy arrays are modelled by value (shape and nested lists of samples);
    [Module Store] repeats the two transforms over a store of arrays, where
    every NumPy call allocates its result and item assignment updates an
    array in place, to account for aliasing.  Python floats are IEEE
    binary64 numbers, given by the standard library's [spec_float]. *)

From Stdlib Require Import ZArith List Lia Bool String.
From Stdlib Require Import Floats.SpecFloat DecimalString.
From stdpp Require Import gmap.
Import ListNotations.
Open Scope Z_scope.

(** ** Python exceptions and results *)

Inductive pyexn := TypeError | ValueError | OverflowError | ReferenceError.

Inductive result (A : Type) :=
| Ok (a : A)
| Raise (e : pyexn).
Arguments Ok {A} a.
Arguments Raise {A} e.

Definition rbind {A B} (r : result A) (k : A -> result B) : result B :=
  match r with
  | Ok a => k a
  | Raise e => Raise e
  end.

(** ** NumPy arrays

    [np.array(img)] of an 8-bit PIL image is a two-dimensional array of
    shape [(h, w)] (modes L and P) or a three-dimensional one of shape
    [(h, w, c)] (LA, RGB, RGBA: [c] is 2, 3 or 4).  An array carries its
    shape, as in NumPy, so that the shape of an empty array is not lost. *)

Inductive ndarray :=
| Arr2 (h w : nat) (rows : list (list Z))
| Arr3 (h w c : nat) (rows : list (list (list Z))).

Definition shape (a : ndarray) : list nat :=
  match a with
  | Arr2 h w _ => [h; w]
  | Arr3 h w c _ => [h; w; c]
  end.

(** The data fit the shape: [h] rows of [w] pixels (of [c] samples). *)
Definition wf (a : ndarray) : Prop :=
  match a with
  | Arr2 h w rows =>
      length rows = h /\ Forall (fun r => length r = w) rows
  | Arr3 h w c rows =>
      length rows = h /\
      Forall (fun r => length r = w /\ Forall (fun p => length p = c) r) rows
  end.

(** Every sample satisfies [P]. *)
Definition all_samples (P : Z -> Prop) (a : ndarray) : Prop :=
  match a with
  | Arr2 _ _ rows => Forall (Forall P) rows
  | Arr3 _ _ _ rows => Forall (Forall (Forall P)) rows
  end.

Definition is_u8 (s : Z) : Prop := 0 <= s <= 255.

(** The modes [Image.fromarray] knows for [uint8] data: two dimensions, or
    three with 2, 3 or 4 channels. *)
Definition pil_mode_ok (a : ndarray) : bool :=
  match a with
  | Arr2 _ _ _ => true
  | Arr3 _ _ c _ => (2 <=? c)%nat && (c <=? 4)%nat
  end.

(** A decoded image has at least one row and one column. *)
Definition nonempty (a : ndarray) : Prop :=
  match a with
  | Arr2 h w _ => (0 < h)%nat /\ (0 < w)%nat
  | Arr3 h w _ _ => (0 < h)%nat /\ (0 < w)%nat
  end.

(** A pixel buffer: the [uint8] array of a decoded image. *)
Definition pixel_buffer (a : ndarray) : Prop :=
  wf a /\ all_samples is_u8 a /\ pil_mode_ok a = true /\ nonempty a.

Definition valid_key (key : Z) : Prop := 1 <= key <= 255.

(** Element-wise application of [f] (a NumPy ufunc against a scalar). *)
Definition amap (f : Z -> Z) (a : ndarray) : ndarray :=
  match a with
  | Arr2 h w rows => Arr2 h w (map (map f) rows)
  | Arr3 h w c rows => Arr3 h w c (map (map (map f)) rows)
  end.

(** Element-wise application of [f] to two arrays of one shape. *)
Definition azip (f : Z -> Z -> Z) (a b : ndarray) : ndarray :=
  match a, b with
  | Arr2 h w ra, Arr2 _ _ rb => Arr2 h w (zip_with (zip_with f) ra rb)
  | Arr3 h w c ra, Arr3 _ _ _ rb =>
      Arr3 h w c (zip_with (zip_with (zip_with f)) ra rb)
  | _, _ => a
  end.

(** *** Integer types

    [int16] results wrap around; [astype('uint8')] keeps the low byte. *)
Definition wrap16 (x : Z) : Z := (x + 32768) mod 65536 - 32768.
Definition wrap8u (x : Z) : Z := x mod 256.

Definition astype_int16 (a : ndarray) : ndarray := amap wrap16 a.
Definition astype_uint8 (a : ndarray) : ndarray := amap wrap8u a.

(** Arithmetic of an [int16] array against a Python integer that fits
    [int16] (every key in [1,255] and its triple do): the result is
    [int16].  [%] is Python's floored remainder, which is [Z.modulo] for
    the positive divisor 256. *)
Definition np_add (a : ndarray) (k : Z) : ndarray :=
  amap (fun s => wrap16 (s + k)) a.

Definition np_sub (a : ndarray) (k : Z) : ndarray :=
  amap (fun s => wrap16 (s - k)) a.

Definition np_mod (a : ndarray) (k : Z) : ndarray :=
  amap (fun s => s mod k) a.

Definition np_xor (a : ndarray) (k : Z) : ndarray :=
  amap (fun s => wrap16 (Z.lxor s k)) a.

Definition np_and (a : ndarray) (k : Z) : ndarray :=
  amap (fun s => Z.land s k) a.

Definition np_left_shift (a : ndarray) (n : Z) : ndarray :=
  amap (fun s => wrap16 (Z.shiftl s n)) a.

Definition np_right_shift (a : ndarray) (n : Z) : ndarray :=
  amap (fun s => Z.shiftr s n) a.

(** [int16 | int64] is [int64]: no wrap-around on these values. *)
Definition np_or (a b : ndarray) : ndarray := azip Z.lor a b.

(** [np.clip(a, lo, hi)] is [minimum(maximum(a, lo), hi)]. *)
Definition np_clip (a : ndarray) (lo hi : Z) : ndarray :=
  amap (fun s => Z.min (Z.max s lo) hi) a.

(** *** [np.roll(a, shift, axis=0)]

    NumPy reduces the shift modulo the length of the axis ([or 1] when it
    is empty); a zero offset copies the array, any other moves the last
    [offset] rows to the front. *)
Definition roll_rows {A} (h : nat) (shift : Z) (rows : list A) : list A :=
  let offset := Z.to_nat (shift mod (if (h =? 0)%nat then 1 else Z.of_nat h)) in
  if (offset =? 0)%nat then rows
  else skipn (h - offset) rows ++ firstn (h - offset) rows.

Definition np_roll (a : ndarray) (shift : Z) : ndarray :=
  match a with
  | Arr2 h w rows => Arr2 h w (roll_rows h shift rows)
  | Arr3 h w c rows => Arr3 h w c (roll_rows h shift rows)
  end.

(** *** Channel indexing of a three-dimensional array

    Indexing with a list of channels copies them; indexing with one
    channel reads it; assignment to either writes into the array. *)

(** [pixels[:, :, [2, 0]]], of shape [(h, w, 2)]. *)
Definition take20 (p : list Z) : list Z :=
  match p with
  | c0 :: c1 :: c2 :: rest => [c2; c0]
  | _ => []
  end.

Definition getitem_20 (a : ndarray) : ndarray :=
  match a with
  | Arr2 _ _ _ => a
  | Arr3 h w c rows => Arr3 h w 2 (map (map take20) rows)
  end.

(** [pixels[:, :, [0, 2]] = t]. *)
Definition put02 (p t : list Z) : list Z :=
  match p, t with
  | c0 :: c1 :: c2 :: rest, [x; y] => x :: c1 :: y :: rest
  | _, _ => p
  end.

Definition setitem_02 (a t : ndarray) : ndarray :=
  match a, t with
  | Arr3 h w c rows, Arr3 _ _ _ trows =>
      Arr3 h w c (zip_with (zip_with put02) rows trows)
  | _, _ => a
  end.

(** [pixels[:, :, 1]], of shape [(h, w)]. *)
Definition getitem_1 (a : ndarray) : ndarray :=
  match a with
  | Arr2 _ _ _ => a
  | Arr3 h w c rows => Arr2 h w (map (map (fun p => nth 1 p 0)) rows)
  end.

(** [pixels[:, :, 1] = t]. *)
Definition put1 (p : list Z) (v : Z) : list Z :=
  match p with
  | c0 :: c1 :: rest => c0 :: v :: rest
  | _ => p
  end.

Definition setitem_1 (a t : ndarray) : ndarray :=
  match a, t with
  | Arr3 h w c rows, Arr2 _ _ trows =>
      Arr3 h w c (zip_with (zip_with put1) rows trows)
  | _, _ => a
  end.

(** [len(pixels.shape) == 3 and pixels.shape[2] >= 3]. *)
Definition has_rgb (a : ndarray) : bool :=
  match a with
  | Arr2 _ _ _ => false
  | Arr3 _ _ c _ => (3 <=? c)%nat
  end.

(** *** [np.random.randint(0, 2, shape)]

    The generator is an oracle giving the bit drawn for each position; the
    array has the shape asked for. *)
Definition rng := nat -> nat -> nat -> bool.

Definition tabulate {A} (n : nat) (f : nat -> A) : list A := map f (seq 0 n).

Definition np_random_bits (g : rng) (like : ndarray) : ndarray :=
  match like with
  | Arr2 h w _ =>
      Arr2 h w (tabulate h (fun i => tabulate w (fun j => Z.b2z (g i j 0%nat))))
  | Arr3 h w c _ =>
      Arr3 h w c
        (tabulate h (fun i => tabulate w (fun j =>
           tabulate c (fun k => Z.b2z (g i j k)))))
  end.

(** *** [Image.fromarray]

    The image is represented by its [uint8] array, which [np.array(img)]
    gives back.  PIL raises [TypeError] for a channel count outside 2..4. *)
Definition Image_fromarray (a : ndarray) : result ndarray :=
  if pil_mode_ok a then Ok a else Raise TypeError.

(** ** The transforms *)

(** The array held by [pixels] when the [if]/[elif] chain is left, before
    the final clamp (lines 129-146). *)
Definition encrypt_pixels (g : rng) (pixels : ndarray) (key : Z)
    (method : string) : ndarray :=
  let pixels := astype_int16 pixels in
  if String.eqb method "swap" then
    if has_rgb pixels then
      let pixels := setitem_02 pixels (getitem_20 pixels) in
      setitem_1 pixels (np_mod (np_add (getitem_1 pixels) key) 256)
    else pixels
  else if String.eqb method "xor" then
    np_xor pixels key
  else if String.eqb method "shift" then
    np_mod (np_left_shift pixels (key mod 8)) 256
  else if String.eqb method "aes" then
    let pixels := np_roll pixels key in
    np_mod (np_add pixels (key * 3)) 256
  else if String.eqb method "steganography" then
    let noise := np_random_bits g pixels in
    np_or (np_and pixels 254) noise
  else pixels.

Definition encrypt_image_from_array (g : rng) (pixels : ndarray) (key : Z)
    (method : string) : result ndarray :=
  let pixels := encrypt_pixels g pixels key method in
  Image_fromarray (astype_uint8 (np_clip pixels 0 255)).

(** Lines 153-168. *)
Definition decrypt_pixels (pixels : ndarray) (key : Z) (method : string)
  : ndarray :=
  let pixels := astype_int16 pixels in
  if String.eqb method "swap" then
    if has_rgb pixels then
      let pixels := setitem_02 pixels (getitem_20 pixels) in
      setitem_1 pixels (np_mod (np_sub (getitem_1 pixels) key) 256)
    else pixels
  else if String.eqb method "xor" then
    np_xor pixels key
  else if String.eqb method "shift" then
    np_mod (np_right_shift pixels (key mod 8)) 256
  else if String.eqb method "aes" then
    let pixels := np_roll pixels (- key) in
    np_mod (np_sub pixels (key * 3)) 256
  else if String.eqb method "steganography" then
    np_and pixels 254
  else pixels.

Definition decrypt_image_from_array (pixels : ndarray) (key : Z)
    (method : string) : result ndarray :=
  let pixels := decrypt_pixels pixels key method in
  Image_fromarray (astype_uint8 (np_clip pixels 0 255)).

(** The five method identifiers of the combo box. *)
Definition methods : list string :=
  ["swap"; "xor"; "shift"; "aes"; "steganography"]%string.

Definition recognized (method : string) : bool :=
  existsb (String.eqb method) methods.

(** ** The transforms over a store of arrays

    Python names hold references.  Every NumPy function and operator
    returns a newly allocated array; only item assignment writes into an
    existing one. *)
Module Store.

Definition loc := nat.
Abbreviation heap := (gmap loc ndarray).

Definition M (A : Type) : Type := heap -> result (A * heap).

Definition ret {A} (x : A) : M A := fun h => Ok (x, h).

Definition bind {A B} (m : M A) (k : A -> M B) : M B :=
  fun h => match m h with
           | Ok (x, h') => k x h'
           | Raise e => Raise e
           end.

Definition raise {A} (e : pyexn) : M A := fun _ => Raise e.

Notation "'let*' x ':=' m 'in' k" := (bind m (fun x => k))
  (at level 10, x name, k at level 200).

(** Allocation at a location the store does not use yet. *)
Definition new (a : ndarray) : M loc :=
  fun h => let l := fresh (dom h) in Ok (l, <[l := a]> h).

(** A reference the program holds is always allocated; the error case is
    there to make [get] total. *)
Definition get (l : loc) : M ndarray :=
  fun h => match h !! l with
           | Some a => Ok (a, h)
           | None => Raise ReferenceError
           end.

(** A NumPy call on one array, and on two. *)
Definition call1 (f : ndarray -> ndarray) (l : loc) : M loc :=
  let* a := get l in new (f a).

Definition call2 (f : ndarray -> ndarray -> ndarray) (l1 l2 : loc) : M loc :=
  let* a := get l1 in let* b := get l2 in new (f a b).

(** Item assignment [target[...] = source], in place. *)
Definition setitem (f : ndarray -> ndarray -> ndarray) (target source : loc)
  : M unit :=
  let* a := get target in let* t := get source in
  fun h => Ok (tt, <[target := f a t]> h).

Definition Image_fromarray (l : loc) : M loc :=
  let* a := get l in
  if pil_mode_ok a then ret l else raise TypeError.

(** Lines 129-146: the array [pixels] names when the chain is left. *)
Definition encrypt_pixels (g : rng) (pixels : loc) (key : Z) (method : string)
  : M loc :=
  let* pixels := call1 astype_int16 pixels in
  if String.eqb method "swap" then
    let* a := get pixels in
    if has_rgb a then
      let* t := call1 getitem_20 pixels in
      let* _ := setitem setitem_02 pixels t in
      let* t := call1 getitem_1 pixels in
      let* t := call1 (fun a => np_add a key) t in
      let* t := call1 (fun a => np_mod a 256) t in
      let* _ := setitem setitem_1 pixels t in
      ret pixels
    else ret pixels
  else if String.eqb method "xor" then
    call1 (fun a => np_xor a key) pixels
  else if String.eqb method "shift" then
    let* t := call1 (fun a => np_left_shift a (key mod 8)) pixels in
    call1 (fun a => np_mod a 256) t
  else if String.eqb method "aes" then
    let* pixels := call1 (fun a => np_roll a key) pixels in
    let* t := call1 (fun a => np_add a (key * 3)) pixels in
    call1 (fun a => np_mod a 256) t
  else if String.eqb method "steganography" then
    let* noise := call1 (np_random_bits g) pixels in
    let* t := call1 (fun a => np_and a 254) pixels in
    call2 np_or t noise
  else ret pixels.

(** [Image.fromarray(np.clip(pixels, 0, 255).astype('uint8'))]. *)
Definition to_image (pixels : loc) : M loc :=
  let* t := call1 (fun a => np_clip a 0 255) pixels in
  let* t := call1 astype_uint8 t in
  Image_fromarray t.

Definition encrypt_image_from_array (g : rng) (pixels : loc) (key : Z)
    (method : string) : M loc :=
  let* pixels := encrypt_pixels g pixels key method in
  to_image pixels.

(** Lines 153-168. *)
Definition decrypt_pixels (pixels : loc) (key : Z) (method : string) : M loc :=
  let* pixels := call1 astype_int16 pixels in
  if String.eqb method "swap" then
    let* a := get pixels in
    if has_rgb a then
      let* t := call1 getitem_20 pixels in
      let* _ := setitem setitem_02 pixels t in
      let* t := call1 getitem_1 pixels in
      let* t := call1 (fun a => np_sub a key) t in
      let* t := call1 (fun a => np_mod a 256) t in
      let* _ := setitem setitem_1 pixels t in
      ret pixels
    else ret pixels
  else if String.eqb method "xor" then
    call1 (fun a => np_xor a key) pixels
  else if String.eqb method "shift" then
    let* t := call1 (fun a => np_right_shift a (key mod 8)) pixels in
    call1 (fun a => np_mod a 256) t
  else if String.eqb method "aes" then
    let* pixels := call1 (fun a => np_roll a (- key)) pixels in
    let* t := call1 (fun a => np_sub a (key * 3)) pixels in
    call1 (fun a => np_mod a 256) t
  else if String.eqb method "steganography" then
    call1 (fun a => np_and a 254) pixels
  else ret pixels.

Definition decrypt_image_from_array (pixels : loc) (key : Z) (method : string)
  : M loc :=
  let* pixels := decrypt_pixels pixels key method in
  to_image pixels.

(** The computation [m] run from the store [h] returns, and its value
    and final store satisfy [Q]. *)
Definition returns {A} (m : M A) (h : heap) (Q : A -> heap -> Prop) : Prop :=
  exists x h', m h = Ok (x, h') /\ Q x h'.

(** A transform run on the caller's array [p]: the store afterwards
    still holds every array of the caller, [p] included, and the result
    [e] sits at a location the caller did not have. *)
Definition leaves_input (h : heap) (p : loc) (a e : ndarray)
    (r : loc) (h' : heap) : Prop :=
  h' !! p = Some a /\ r <> p /\ h !! r = None /\
  (forall l x, h !! l = Some x -> h' !! l = Some x) /\
  h' !! r = Some e.

End Store.

(** ** Python floats: IEEE binary64 *)

Abbreviation float := spec_float.
Definition prec : Z := 53.
Definition emax : Z := 1024.

(** The float nearest to an integer (round to nearest, ties to even). *)
Definition Z2F (n : Z) : float := binary_normalize prec emax n 0 false.

(** A Python integer used in float arithmetic is converted first; an
    integer beyond the range of floats raises [OverflowError]. *)
Definition float_of_int (n : Z) : result float :=
  match Z2F n with
  | S754_infinity _ => Raise OverflowError
  | f => Ok f
  end.

Definition fmul (x y : float) : float := SFmul prec emax x y.

(** [x > n] for a float [x] and a small integer constant [n]. *)
Definition float_gt_int (x : float) (n : Z) : bool := SFltb (Z2F n) x.

(** [x >= 0]. *)
Definition float_nonneg (x : float) : bool := SFleb (S754_zero false) x.

Definition is_finite (x : float) : bool :=
  match x with
  | S754_zero _ | S754_finite _ _ _ => true
  | _ => false
  end.

(** The integer [sm * 2^e] rounded down, and rounded towards zero. *)
Definition scale_floor (sm e : Z) : Z :=
  if 0 <=? e then sm * 2 ^ e else sm / 2 ^ (- e).

Definition scale_trunc (sm e : Z) : Z :=
  if 0 <=? e then sm * 2 ^ e else Z.quot sm (2 ^ (- e)).

(** The floor of a finite float (0 for the others). *)
Definition float_floor (x : float) : Z :=
  match x with
  | S754_finite s m e => scale_floor (cond_Zopp s (Zpos m)) e
  | _ => 0
  end.

(** [int(x)]: truncation towards zero; infinities and NaN raise. *)
Definition py_int (x : float) : result Z :=
  match x with
  | S754_zero _ => Ok 0
  | S754_finite s m e => Ok (scale_trunc (cond_Zopp s (Zpos m)) e)
  | S754_infinity _ => Raise OverflowError
  | S754_nan => Raise ValueError
  end.

(** ** The analyzer *)

(** The dictionary [analyze_image] returns. *)
Record analysis := {
  entropy : float;
  contrast : float;
  brightness : float;
  edge_density : float;
  complexity : string
}.

Module ImageAnalyzer.

(** Line 56: the complexity class of an entropy. *)
Definition complexity_of (entropy : float) : string :=
  if float_gt_int entropy 6 then "high"
  else if float_gt_int entropy 4 then "medium"
  else "low".

Section Features.
(** The floating-point statistics of lines 31-49 (the grey image, its
    256-bin histogram entropy, standard deviation, mean, and the share
    of gradient values above 10).  Their values are left open; what is
    modelled is which call raises. *)
Variables np_entropy np_std np_mean np_edge_density : ndarray -> float.

(** The grey image has shape [(h, w)] in both branches of line 31. *)
Definition gray_shape (image_array : ndarray) : nat * nat :=
  match image_array with
  | Arr2 h w _ => (h, w)
  | Arr3 h w _ _ => (h, w)
  end.

(** [np.gradient(gray)] raises [ValueError] when an axis of [gray] has
    fewer than [edge_order + 1 = 2] elements.  On the array of an
    image no other call of the body raises. *)
Definition np_gradient (image_array : ndarray) : result unit :=
  let '(h, w) := gray_shape image_array in
  if (2 <=? h)%nat && (2 <=? w)%nat then Ok tt else Raise ValueError.

(** The body of the [try]. *)
Definition analyze_body (image_array : ndarray) : result analysis :=
  let entropy := np_entropy image_array in
  let contrast := np_std image_array in
  let brightness := np_mean image_array in
  rbind (np_gradient image_array) (fun _ =>
  let edge_density := np_edge_density image_array in
  Ok {| entropy := entropy;
        contrast := contrast;
        brightness := brightness;
        edge_density := edge_density;
        complexity := complexity_of entropy |}).

(** [except Exception: return None]. *)
Definition analyze_image (image_array : ndarray) : option analysis :=
  match analyze_body image_array with
  | Ok a => Some a
  | Raise _ => None
  end.
End Features.

Definition recommend_method (a : analysis) : string :=
  if String.eqb (complexity a) "high" then "aes"
  else if float_gt_int (contrast a) 50 then "xor"
  else "swap".

Definition generate_smart_key (image_analysis : analysis) (base_key : Z)
  : result Z :=
  let entropy := entropy image_analysis in
  let contrast := contrast image_analysis in
  rbind (float_of_int base_key) (fun b =>
  rbind (py_int (fmul (fmul b entropy) contrast)) (fun i =>
  let combined := i mod 256 in
  Ok (Z.max 1 combined))).

End ImageAnalyzer.

(** ** Derived forms used in the proofs *)

(** The two item assignments of the swap method, pixel by pixel. *)
Definition swap02 (p : list Z) : list Z :=
  match p with
  | c0 :: c1 :: c2 :: rest => c2 :: c1 :: c0 :: rest
  | _ => p
  end.

Definition on_channel1 (f : Z -> Z) (p : list Z) : list Z :=
  match p with
  | c0 :: c1 :: rest => c0 :: f c1 :: rest
  | _ => p
  end.

Definition map_pixels (f : list Z -> list Z) (a : ndarray) : ndarray :=
  match a with
  | Arr2 _ _ _ => a
  | Arr3 h w c rows => Arr3 h w c (map (map f) rows)
  end.

(** The swap method on one pixel. *)
Definition swap_pixel (f : Z -> Z) (p : list Z) : list Z :=
  on_channel1 f (swap02 p).

(** A drawn bit. *)
Definition is_bit (s : Z) : Prop := s = 0 \/ s = 1.

(** What a round trip through the shift method leaves of a sample. *)
Definition shift_residue (key s : Z) : Z := s mod 2 ^ (8 - key mod 8).

(** Clearing the least significant bit. *)
Definition clear_lsb (s : Z) : Z := Z.clearbit s 0.

(** [backward(forward(B))], through the two images. *)
Definition round_trip (g : rng) (a : ndarray) (key : Z) (method : string)
  : result ndarray :=
  rbind (encrypt_image_from_array g a key method)
        (fun e => decrypt_image_from_array e key method).

(** Sample inputs. *)
Definition rng_ones : rng := fun _ _ _ => true.
Definition buf_gray : ndarray := Arr2 1 2 [[7; 200]].
Definition buf_rgb : ndarray := Arr3 2 1 3 [[[10; 200; 30]]; [[255; 0; 128]]].
Definition buf_zero : ndarray := Arr2 1 1 [[0]].

(** [x <= n] for a float [x] and a small integer constant [n]. *)
Definition float_le_int (x : float) (n : Z) : bool := SFleb x (Z2F n).

(** The array of a decoded image, possibly with no row or no column. *)
Definition image_array (a : ndarray) : Prop :=
  wf a /\ all_samples is_u8 a /\ pil_mode_ok a = true.

(** The float [base_key * entropy * contrast] of line 79. *)
Definition key_product (a : analysis) (base_key : Z) : float :=
  fmul (fmul (Z2F base_key) (entropy a)) (contrast a).

(** An analysis with the given entropy and contrast. *)
Definition analysis_of (entropy contrast : float) : analysis :=
  {| entropy := entropy;
     contrast := contrast;
     brightness := S754_zero false;
     edge_density := S754_zero false;
     complexity := ImageAnalyzer.complexity_of entropy |}.

(** The float 2^700, about 5.3e210. *)
Definition huge : float := Z2F (2 ^ 700).

(** Statistics that are zero everywhere. *)
Definition zero_stat : ndarray -> float := fun _ => S754_zero false.

Definition buf_1x1 : ndarray := Arr2 1 1 [[7]].
Definition buf_2x2 : ndarray := Arr2 2 2 [[7; 8]; [9; 10]].

(** ** Further forms used in the proofs *)

(** [forward(backward(B))], through the two images. *)
Definition round_trip_back (g : rng) (a : ndarray) (key : Z) (method : string)
  : result ndarray :=
  rbind (decrypt_image_from_array a key method)
        (fun d => encrypt_image_from_array g d key method).

(** A sample with its least significant bit replaced by the bit [b]. *)
Definition set_lsb (s b : Z) : Z := clear_lsb s + b.

(** A sample with its [n] low bits cleared. *)
Definition clear_low (n s : Z) : Z := s - s mod 2 ^ n.

(** The 256 byte values. *)
Definition bytes : list Z := map Z.of_nat (seq 0 256).

(** The shift amounts [key mod 8] can take. *)
Definition shift_amounts : list Z := map Z.of_nat (seq 0 8).

(** ** The window: [CryptaPixelonApp]

    The fields the handlers read and write: the two images (a PIL image
    is represented by its array), the list [history] of dictionaries
    [{'image', 'operation'}], and the rows of the [history_list] widget
    (text and image of each item).  Labels, pixmaps, message boxes and the
    status bar are left out: no handler reads them back. *)

Record app := {
  current_image : option ndarray;
  result_image : option ndarray;
  history : list (ndarray * string);
  history_list : list (string * ndarray)
}.

Definition set_result_image (self : app) (image : option ndarray) : app :=
  {| current_image := current_image self;
     result_image := image;
     history := history self;
     history_list := history_list self |}.

Definition set_history (self : app) (h : list (ndarray * string)) : app :=
  {| current_image := current_image self;
     result_image := result_image self;
     history := h;
     history_list := history_list self |}.

Definition set_history_list (self : app) (l : list (string * ndarray)) : app :=
  {| current_image := current_image self;
     result_image := result_image self;
     history := history self;
     history_list := l |}.

(** The state [__init__] sets up. *)
Definition initial_app : app :=
  {| current_image := None;
     result_image := None;
     history := [];
     history_list := [] |}.

Definition set_current_image (self : app) (image : option ndarray) : app :=
  {| current_image := image;
     result_image := result_image self;
     history := history self;
     history_list := history_list self |}.

(** [load_image] (lines 555-578): [opened] is what [Image.open(path)]
    gives.  The result image and the history stay as they are. *)
Definition App_load_image (opened : result ndarray) (self : app) : app :=
  match opened with
  | Ok image => set_current_image self (Some image)
  | Raise _ => self
  end.

(** [1 <= key <= 255], the test of [encrypt], [decrypt] and
    [batch_process]. *)
Definition key_in_range (key : Z) : bool := (1 <=? key) && (key <=? 255).

(** [add_history_item] (lines 839-850) on the rows of the widget:
    [insertItem(0, item)], then [takeItem(count - 1)] when there are more
    than 10 rows.  [timestamp] is the clock reading. *)
Definition add_history_item (timestamp operation : string) (image : ndarray)
    (rows : list (string * ndarray)) : list (string * ndarray) :=
  let item_text := (timestamp ++ " - " ++ operation)%string in
  let rows := (item_text, image) :: rows in
  if (10 <? length rows)%nat then removelast rows else rows.

(** [encrypt] (lines 663-705).  [key_text] is [int(self.key_input.text())],
    [None] when it raises [ValueError]; [display_ok] tells whether
    [display_result] (which writes the image to a file) returns: when it
    raises, the handler's [except] skips the rest. *)
Definition App_encrypt (g : rng) (key_text : option Z) (method : string)
    (timestamp : string) (display_ok : bool) (self : app) : app :=
  match current_image self with
  | None => self
  | Some current =>
      match key_text with
      | None => self
      | Some key =>
          if negb (key_in_range key) then self
          else
            let self :=
              set_history self
                (history self ++ [(current, "original"%string)]) in
            match encrypt_image_from_array g current key method with
            | Raise _ => self
            | Ok e =>
                let self := set_result_image self (Some e) in
                if display_ok then
                  set_history_list self
                    (add_history_item timestamp ("Encrypted with " ++ method) e
                       (history_list self))
                else self
            end
      end
  end.

(** [decrypt] (lines 707-752). *)
Definition App_decrypt (key_text : option Z) (method : string)
    (timestamp : string) (display_ok : bool) (self : app) : app :=
  let self :=
    match result_image self, current_image self with
    | None, Some current => set_result_image self (Some current)
    | _, _ => self
    end in
  match result_image self with
  | None => self
  | Some result_img =>
      match key_text with
      | None => self
      | Some key =>
          if negb (key_in_range key) then self
          else
            let self :=
              set_history self
                (history self
                 ++ [(result_img, ("encrypted_" ++ method)%string)]) in
            match decrypt_image_from_array result_img key method with
            | Raise _ => self
            | Ok d =>
                let self := set_result_image self (Some d) in
                if display_ok then
                  set_history_list self
                    (add_history_item timestamp ("Decrypted with " ++ method) d
                       (history_list self))
                else self
            end
      end
  end.


(** [update_key_strength] (lines 640-649).  Python strings are lists of
    code points. *)
Definition pystr := list N.

Definition pystr_of (s : string) : pystr :=
  map Ascii.N_of_ascii (list_ascii_of_string s).

Definition full_block : N := 9608.   (* U+2588 *)
Definition light_shade : N := 9617.  (* U+2591 *)

(** [c * n]: no character when [n] is negative. *)
Definition pystr_repeat (c : N) (n : Z) : pystr := repeat c (Z.to_nat n).

Definition key_strength_of (key : Z) : Z := Z.min 10 (key / 25 + 1).

Definition key_strength_bar (key : Z) : pystr :=
  let strength := key_strength_of key in
  pystr_repeat full_block strength ++ pystr_repeat light_shade (10 - strength).

Definition update_key_strength (key_text : option Z) (label : pystr) : pystr :=
  match key_text with
  | None => pystr_of "Key Strength: Invalid"
  | Some key =>
      if key_in_range key then
        pystr_of "Key Strength: " ++ key_strength_bar key ++ pystr_of " ("
        ++ pystr_of (NilZero.string_of_int (Z.to_int key))
        ++ pystr_of "/255)"
      else label
  end.

(** The mean squared error of [update_metrics] (lines 813-817), on the
    flattened [uint8] arrays: the difference and the square are [uint8]
    and wrap around; the mean is a float. *)
Definition flatten (a : ndarray) : list Z :=
  match a with
  | Arr2 _ _ rows => concat rows
  | Arr3 _ _ _ rows => concat (map (@concat Z) rows)
  end.

(** One-dimensional arrays broadcast when their sizes agree or one of
    them has a single element; otherwise NumPy raises [ValueError]. *)
Definition np_subtract_u8 (x y : list Z) : result (list Z) :=
  let sub := fun a b => wrap8u (a - b) in
  if (length x =? length y)%nat then Ok (zip_with sub x y)
  else match x, y with
       | [a], _ => Ok (map (fun b => sub a b) y)
       | _, [b] => Ok (map (fun a => sub a b) x)
       | _, _ => Raise ValueError
       end.

Definition fdiv (x y : float) : float := SFdiv prec emax x y.

Definition Zsum (l : list Z) : Z := fold_right Z.add 0 l.

Definition squared_errors (orig_image result_img : ndarray)
  : result (list Z) :=
  let orig_array := flatten orig_image in
  let result_array := flatten result_img in
  rbind (np_subtract_u8 orig_array result_array) (fun d =>
  Ok (map (fun x => wrap8u (x ^ 2)) d)).

Definition metrics_mse (orig_image result_img : ndarray) : result float :=
  rbind (squared_errors orig_image result_img) (fun sq =>
  Ok (fdiv (Z2F (Zsum sq)) (Z2F (Z.of_nat (length sq))))).

(** Several calls of [add_history_item] in a row, the first of the list
    first; an entry is the clock reading, the operation and the image. *)
Definition history_row (entry : string * string * ndarray) : string * ndarray :=
  let '(timestamp, operation, image) := entry in
  ((timestamp ++ " - " ++ operation)%string, image).

Definition add_history_items (entries : list (string * string * ndarray))
    (rows : list (string * ndarray)) : list (string * ndarray) :=
  fold_left (fun rows entry =>
               let '(timestamp, operation, image) := entry in
               add_history_item timestamp operation image rows)
            entries rows.

(** ** The batch worker: [BatchProcessWorker.run] (lines 99-120) *)

(** The signals the worker emits. *)
Inductive signal :=
| progress (value : Z)
| finished (count : nat)
| error.

(** What the file system does for one file: what [Image.open] and
    [np.array] give, and whether [save] returns. *)
Record batch_file := {
  opened : result ndarray;
  saved_ok : bool
}.

(** [int((idx + 1) / len(files) * 100)]: a float division, a float
    product, a truncation. *)
Definition batch_progress (idx n : nat) : result Z :=
  py_int (fmul (fdiv (Z2F (Z.of_nat idx + 1)) (Z2F (Z.of_nat n))) (Z2F 100)).

(** The [for] loop from file [idx] on: the images saved, the signals
    emitted, and whether the loop ran to its end ([false] when an
    exception left it).  [g idx] gives the random bits drawn for file
    [idx]. *)
Fixpoint batch_loop (g : nat -> rng) (key : Z) (method : string)
    (n idx : nat) (files : list batch_file)
  : list ndarray * list signal * bool :=
  match files with
  | [] => ([], [], true)
  | file :: rest =>
      match rbind (opened file) (fun pixels =>
              encrypt_image_from_array (g idx) pixels key method) with
      | Raise _ => ([], [], false)
      | Ok encrypted =>
          if saved_ok file then
            match batch_progress idx n with
            | Raise _ => ([encrypted], [], false)
            | Ok p =>
                let '(images, signals, completed) :=
                  batch_loop g key method n (S idx) rest in
                (encrypted :: images, progress p :: signals, completed)
            end
          else ([], [], false)
      end
  end.

(** [run]: [makedirs_ok] tells whether [os.makedirs] returns. *)
Definition BatchProcessWorker_run (g : nat -> rng) (key : Z) (method : string)
    (makedirs_ok : bool) (files : list batch_file)
  : list ndarray * list signal :=
  if makedirs_ok then
    let '(images, signals, completed) :=
      batch_loop g key method (length files) 0 files in
    (images,
     signals ++ [if completed then finished (length files) else error])
  else ([], [error]).

(** All pairs [(idx, n)] with [idx < n <= bound]. *)
Definition progress_cases (bound : nat) : list (nat * nat) :=
  flat_map (fun n => map (fun idx => (idx, n)) (seq 0 n)) (seq 1 bound).

Definition progress_case_ok (c : nat * nat) : bool :=
  let '(idx, n) := c in
  match batch_progress idx n with
  | Ok p =>
      let exact := (100 * (Z.of_nat idx + 1)) / Z.of_nat n in
      ((p =? exact) || (p =? exact - 1))
      && (if (S idx =? n)%nat then p =? 100 else true)
      && match batch_progress (S idx) n with
         | Ok q => (S idx =? n)%nat || (p <=? q)
         | Raise _ => (S idx =? n)%nat
         end
  | Raise _ => false
  end.

(** A file the worker gets through: it opens, encrypts to [e] and saves. *)
Definition file_gives (g : rng) (key : Z) (method : string)
    (file : batch_file) (e : ndarray) : Prop :=
  exists pixels, opened file = Ok pixels /\ saved_ok file = true /\
                 encrypt_image_from_array g pixels key method = Ok e.

(** The last element of a list of signals. *)
Definition last_signal (signals : list signal) : signal :=
  List.last signals error.

(** * Proofs *)

(** ** Integer facts *)

Lemma wrap16_small x : -32768 <= x < 32768 -> wrap16 x = x.
Proof.
  intros H. unfold wrap16.
  rewrite Z.mod_small by lia. lia.
Qed.

Lemma u8_bits s :
  0 <= s <= 255 <-> (0 <= s /\ forall i, 8 <= i -> Z.testbit s i = false).
Proof.
  split.
  - intros [H0 H1]. split; [exact H0|]. intros i Hi.
    destruct (Z.eq_dec s 0) as [->|Hs]; [apply Z.testbit_0_l|].
    apply Z.bits_above_log2; [lia|].
    assert (Z.log2 s < 8); [|lia].
    apply Z.log2_lt_pow2; lia.
  - intros [H0 Hb]. split; [exact H0|].
    destruct (Z.eq_dec s 0) as [->|Hs]; [lia|].
    assert (Z.log2 s < 8).
    { destruct (Z_lt_le_dec (Z.log2 s) 8) as [?|Hge]; [assumption|].
      specialize (Hb (Z.log2 s) Hge).
      rewrite Z.bit_log2 in Hb by lia. discriminate. }
    assert (s < 2 ^ 8) by (apply Z.log2_lt_pow2; lia).
    lia.
Qed.

Lemma lxor_u8 s k : is_u8 s -> is_u8 k -> is_u8 (Z.lxor s k).
Proof.
  unfold is_u8. intros Hs Hk.
  apply u8_bits in Hs as [Hs0 Hs], Hk as [Hk0 Hk].
  apply u8_bits. split.
  - apply Z.lxor_nonneg. tauto.
  - intros i Hi. rewrite Z.lxor_spec, Hs, Hk by assumption. reflexivity.
Qed.

Lemma land_u8 s k : is_u8 s -> 0 <= k -> is_u8 (Z.land s k).
Proof.
  unfold is_u8. intros Hs Hk.
  apply u8_bits in Hs as [Hs0 Hs].
  apply u8_bits. split.
  - apply Z.land_nonneg. tauto.
  - intros i Hi. rewrite Z.land_spec, Hs by assumption. reflexivity.
Qed.

Lemma lor_u8 s k : is_u8 s -> is_u8 k -> is_u8 (Z.lor s k).
Proof.
  unfold is_u8. intros Hs Hk.
  apply u8_bits in Hs as [Hs0 Hs], Hk as [Hk0 Hk].
  apply u8_bits. split.
  - apply Z.lor_nonneg. tauto.
  - intros i Hi. rewrite Z.lor_spec, Hs, Hk by assumption. reflexivity.
Qed.

Lemma lxor_involutive s k : Z.lxor (Z.lxor s k) k = s.
Proof. rewrite Z.lxor_assoc, Z.lxor_nilpotent, Z.lxor_0_r. reflexivity. Qed.

Lemma mod256_u8 x : is_u8 (x mod 256).
Proof. unfold is_u8. pose proof (Z.mod_pos_bound x 256). lia. Qed.

Lemma clip_u8 s : is_u8 s -> Z.min (Z.max s 0) 255 = s.
Proof. unfold is_u8. lia. Qed.

Lemma wrap8u_u8 s : is_u8 s -> wrap8u s = s.
Proof. unfold is_u8, wrap8u. intros. apply Z.mod_small. lia. Qed.

(** ** Lists *)

Section ListFacts.
Context {A B C : Type}.

Lemma map_ext_on (P : A -> Prop) (f g : A -> B) l :
  Forall P l -> (forall x, P x -> f x = g x) -> map f l = map g l.
Proof.
  induction 1 as [|x l Hx _ IH]; intros E; simpl; [reflexivity|].
  rewrite (E x Hx), IH by exact E. reflexivity.
Qed.

Lemma Forall_map_on (P : A -> Prop) (Q : B -> Prop) (f : A -> B) l :
  Forall P l -> (forall x, P x -> Q (f x)) -> Forall Q (map f l).
Proof.
  induction 1 as [|x l Hx _ IH]; intros E; simpl; constructor; auto.
Qed.

Lemma Forall_weaken (P Q : A -> Prop) l :
  Forall P l -> (forall x, P x -> Q x) -> Forall Q l.
Proof. induction 1; intros E; constructor; auto. Qed.

Lemma Forall_zip_with_on (P : A -> Prop) (Q : B -> Prop) (R : C -> Prop)
    (f : A -> B -> C) l k :
  Forall P l -> Forall Q k -> (forall x y, P x -> Q y -> R (f x y)) ->
  Forall R (zip_with f l k).
Proof.
  intros Hl. revert k.
  induction Hl as [|x l Hx _ IH]; intros k Hk E; simpl; [constructor|].
  destruct Hk as [|y k Hy Hk]; constructor; auto.
Qed.

Lemma zip_with_map_r (f : A -> B -> C) (g : A -> B) l :
  zip_with f l (map g l) = map (fun x => f x (g x)) l.
Proof.
  induction l as [|x l IH]; simpl; [reflexivity|]. rewrite IH. reflexivity.
Qed.

Lemma Forall_tabulate (P : A -> Prop) n (f : nat -> A) :
  (forall i, P (f i)) -> Forall P (tabulate n f).
Proof.
  intros E. unfold tabulate. generalize (seq 0 n). intros l.
  induction l; simpl; constructor; auto.
Qed.

Lemma length_tabulate n (f : nat -> A) : length (tabulate n f) = n.
Proof. unfold tabulate. rewrite length_map, length_seq. reflexivity. Qed.
End ListFacts.

Lemma map_id_on {A} (P : A -> Prop) (f : A -> A) l :
  Forall P l -> (forall x, P x -> f x = x) -> map f l = l.
Proof.
  intros H E. rewrite (map_ext_on P f (fun x => x) l H E). apply map_id.
Qed.

(** ** Rolling rows *)

Section Roll.
Context {A : Type}.

Lemma roll_rows_Forall (P : A -> Prop) h shift (rows : list A) :
  Forall P rows -> Forall P (roll_rows h shift rows).
Proof.
  intros H. unfold roll_rows.
  destruct (_ =? 0)%nat; [exact H|].
  apply Forall_app. split.
  - apply Forall_drop; exact H.
  - apply Forall_take; exact H.
Qed.

Lemma roll_rows_length h shift (rows : list A) :
  length rows = h -> length (roll_rows h shift rows) = h.
Proof.
  intros H. unfold roll_rows.
  destruct (_ =? 0)%nat; [exact H|].
  rewrite length_app, length_skipn, length_firstn. lia.
Qed.

(** Rolling by [key] and then by [- key] restores the rows. *)
Lemma roll_rows_inverse h key (rows : list A) :
  length rows = h ->
  roll_rows h (- key) (roll_rows h key rows) = rows.
Proof.
  intros Hlen. unfold roll_rows.
  destruct (Nat.eqb_spec h 0) as [Hz|Hnz].
  - rewrite !Z.mod_1_r. reflexivity.
  - set (n := Z.of_nat h). assert (Hn : 0 < n) by lia.
    pose proof (Z.mod_pos_bound key n Hn) as Hb.
    destruct (Z.eq_dec (key mod n) 0) as [E|E].
    + assert (E' : (- key) mod n = 0) by (apply Z.mod_opp_l_z; [lia|exact E]).
      rewrite E, E'. reflexivity.
    + assert (E' : (- key) mod n = n - key mod n)
        by (apply Z.mod_opp_l_nz; [lia|exact E]).
      rewrite E'.
      set (o := Z.to_nat (key mod n)).
      assert (Ho : (0 < o < h)%nat) by lia.
      replace (Z.to_nat (n - key mod n)) with (h - o)%nat by lia.
      destruct (Nat.eqb_spec o 0) as [?|_]; [lia|].
      destruct (Nat.eqb_spec (h - o) 0) as [?|_]; [lia|].
      replace (h - (h - o))%nat with o by lia.
      assert (Hs : length (skipn (h - o) rows) = o)
        by (rewrite length_skipn; lia).
      rewrite skipn_app, firstn_app, Hs.
      rewrite (skipn_all2 (n := o) (skipn (h - o) rows)) by lia.
      rewrite Nat.sub_diag. simpl.
      rewrite (firstn_all2 (n := o) (skipn (h - o) rows)) by lia.
      rewrite app_nil_r.
      apply firstn_skipn.
Qed.
End Roll.

(** ** Arrays *)

Lemma amap_ext_on (P : Z -> Prop) f g a :
  all_samples P a -> (forall s, P s -> f s = g s) -> amap f a = amap g a.
Proof.
  intros H E. destruct a as [h w rows|h w c rows]; simpl in *; f_equal.
  - apply (map_ext_on (Forall P)); [exact H|].
    intros r Hr. apply (map_ext_on P); assumption.
  - apply (map_ext_on (Forall (Forall P))); [exact H|].
    intros r Hr. apply (map_ext_on (Forall P)); [exact Hr|].
    intros p Hp. apply (map_ext_on P); assumption.
Qed.

Lemma amap_id_on (P : Z -> Prop) f a :
  all_samples P a -> (forall s, P s -> f s = s) -> amap f a = a.
Proof.
  intros H E. destruct a as [h w rows|h w c rows]; simpl in *; f_equal.
  - apply (map_id_on (Forall P)); [exact H|].
    intros r Hr. apply (map_id_on P); assumption.
  - apply (map_id_on (Forall (Forall P))); [exact H|].
    intros r Hr. apply (map_id_on (Forall P)); [exact Hr|].
    intros p Hp. apply (map_id_on P); assumption.
Qed.

Lemma amap_amap f g a : amap f (amap g a) = amap (fun s => f (g s)) a.
Proof.
  destruct a as [h w rows|h w c rows]; simpl; f_equal.
  - rewrite map_map. apply map_ext. intros r. apply map_map.
  - rewrite map_map. apply map_ext. intros r.
    rewrite map_map. apply map_ext. intros p. apply map_map.
Qed.

Lemma all_samples_amap (P Q : Z -> Prop) f a :
  all_samples P a -> (forall s, P s -> Q (f s)) -> all_samples Q (amap f a).
Proof.
  intros H E. destruct a as [h w rows|h w c rows]; simpl in *.
  - apply (Forall_map_on (Forall P)); [exact H|].
    intros r Hr. apply (Forall_map_on P); assumption.
  - apply (Forall_map_on (Forall (Forall P))); [exact H|].
    intros r Hr. apply (Forall_map_on (Forall P)); [exact Hr|].
    intros p Hp. apply (Forall_map_on P); assumption.
Qed.

Lemma all_samples_weaken (P Q : Z -> Prop) a :
  all_samples P a -> (forall s, P s -> Q s) -> all_samples Q a.
Proof.
  intros H E. destruct a as [h w rows|h w c rows]; simpl in *.
  - apply (Forall_weaken (Forall P)); [exact H|].
    intros r Hr. apply (Forall_weaken P); assumption.
  - apply (Forall_weaken (Forall (Forall P))); [exact H|].
    intros r Hr. apply (Forall_weaken (Forall P)); [exact Hr|].
    intros p Hp. apply (Forall_weaken P); assumption.
Qed.

Lemma shape_amap f a : shape (amap f a) = shape a.
Proof. destruct a; reflexivity. Qed.

Lemma wf_amap f a : wf a -> wf (amap f a).
Proof.
  destruct a as [h w rows|h w c rows]; simpl; intros [Hh Hr];
    (split; [rewrite length_map; exact Hh|]).
  - apply (Forall_map_on (fun r => length r = w)); [exact Hr|].
    intros r E. rewrite length_map. exact E.
  - apply (Forall_map_on
             (fun r => length r = w /\ Forall (fun p => length p = c) r));
      [exact Hr|].
    intros r [E Hp]. split; [rewrite length_map; exact E|].
    apply (Forall_map_on (fun p => length p = c)); [exact Hp|].
    intros p Ep. rewrite length_map. exact Ep.
Qed.

Lemma pil_mode_ok_amap f a : pil_mode_ok (amap f a) = pil_mode_ok a.
Proof. destruct a; reflexivity. Qed.

Lemma nonempty_amap f a : nonempty (amap f a) <-> nonempty a.
Proof. destruct a; reflexivity. Qed.

(** [np.roll] *)

Lemma shape_np_roll a s : shape (np_roll a s) = shape a.
Proof. destruct a; reflexivity. Qed.

Lemma wf_np_roll a s : wf a -> wf (np_roll a s).
Proof.
  destruct a as [h w rows|h w c rows]; simpl; intros [Hh Hr]; split;
    auto using roll_rows_length, roll_rows_Forall.
Qed.

Lemma all_samples_np_roll P a s :
  all_samples P a -> all_samples P (np_roll a s).
Proof.
  destruct a as [h w rows|h w c rows]; simpl; apply roll_rows_Forall.
Qed.

Lemma roll_rows_map {A B} (f : A -> B) h s rows :
  roll_rows h s (map f rows) = map f (roll_rows h s rows).
Proof.
  unfold roll_rows. destruct (_ =? 0)%nat; [reflexivity|].
  rewrite map_app, skipn_map, firstn_map. reflexivity.
Qed.

Lemma np_roll_amap f a s : np_roll (amap f a) s = amap f (np_roll a s).
Proof.
  destruct a as [h w rows|h w c rows]; simpl; f_equal; apply roll_rows_map.
Qed.

Lemma np_roll_inverse a key : wf a -> np_roll (np_roll a key) (- key) = a.
Proof.
  destruct a as [h w rows|h w c rows]; simpl; intros [Hh _]; f_equal;
    apply roll_rows_inverse; exact Hh.
Qed.

(** Channel assignments, pixel by pixel. *)

Lemma put02_take20 p : put02 p (take20 p) = swap02 p.
Proof. destruct p as [|c0 [|c1 [|c2 rest]]]; reflexivity. Qed.

Lemma put1_nth f p : put1 p (f (nth 1 p 0)) = on_channel1 f p.
Proof. destruct p as [|c0 [|c1 rest]]; reflexivity. Qed.

Lemma setitem_02_getitem_20 a :
  setitem_02 a (getitem_20 a) = map_pixels swap02 a.
Proof.
  destruct a as [h w rows|h w c rows]; simpl; [reflexivity|]. f_equal.
  rewrite zip_with_map_r. apply map_ext. intros r.
  rewrite zip_with_map_r. apply map_ext. intros p. apply put02_take20.
Qed.

Lemma setitem_1_getitem_1 f a :
  setitem_1 a (amap f (getitem_1 a)) = map_pixels (on_channel1 f) a.
Proof.
  destruct a as [h w rows|h w c rows]; simpl; [reflexivity|]. f_equal.
  rewrite map_map.
  rewrite (map_ext _ (fun r => map (fun p => f (nth 1 p 0)) r))
    by (intros r; apply map_map).
  rewrite zip_with_map_r. apply map_ext. intros r.
  rewrite zip_with_map_r. apply map_ext. intros p. apply (put1_nth f).
Qed.

Lemma map_pixels_map_pixels f g a :
  map_pixels f (map_pixels g a) = map_pixels (fun p => f (g p)) a.
Proof.
  destruct a as [h w rows|h w c rows]; simpl; [reflexivity|]. f_equal.
  rewrite map_map. apply map_ext. intros r. apply map_map.
Qed.

Lemma map_pixels_id_on (P : Z -> Prop) f a :
  all_samples P a -> (forall p, Forall P p -> f p = p) -> map_pixels f a = a.
Proof.
  intros H E. destruct a as [h w rows|h w c rows]; simpl in *; [reflexivity|].
  f_equal. apply (map_id_on (Forall (Forall P))); [exact H|].
  intros r Hr. apply (map_id_on (Forall P)); assumption.
Qed.

Lemma all_samples_map_pixels (P Q : Z -> Prop) f a :
  all_samples P a -> (forall s, P s -> Q s) ->
  (forall p, Forall P p -> Forall Q (f p)) ->
  all_samples Q (map_pixels f a).
Proof.
  intros H W E. destruct a as [h w rows|h w c rows]; simpl in *.
  - apply (all_samples_weaken P Q (Arr2 h w rows)); assumption.
  - apply (Forall_map_on (Forall (Forall P))); [exact H|].
    intros r Hr. apply (Forall_map_on (Forall P)); assumption.
Qed.

Lemma shape_map_pixels f a : shape (map_pixels f a) = shape a.
Proof. destruct a; reflexivity. Qed.

Lemma wf_map_pixels f a :
  (forall p, length (f p) = length p) -> wf a -> wf (map_pixels f a).
Proof.
  intros L. destruct a as [h w rows|h w c rows]; simpl; [tauto|].
  intros [Hh Hr]. split; [rewrite length_map; exact Hh|].
  apply (Forall_map_on
           (fun r => length r = w /\ Forall (fun p => length p = c) r));
    [exact Hr|].
  intros r [E Hp]. split; [rewrite length_map; exact E|].
  apply (Forall_map_on (fun p => length p = c)); [exact Hp|].
  intros p Ep. rewrite L. exact Ep.
Qed.

Lemma length_swap02 p : length (swap02 p) = length p.
Proof. destruct p as [|c0 [|c1 [|c2 rest]]]; reflexivity. Qed.

Lemma length_on_channel1 f p : length (on_channel1 f p) = length p.
Proof. destruct p as [|c0 [|c1 rest]]; reflexivity. Qed.

Lemma Forall_swap02 (P : Z -> Prop) p : Forall P p -> Forall P (swap02 p).
Proof.
  destruct p as [|c0 [|c1 [|c2 rest]]]; simpl; auto.
  intros H. inversion_clear H as [|? ? H0 H'].
  inversion_clear H' as [|? ? H1 H''].
  inversion_clear H'' as [|? ? H2 H3]. repeat constructor; assumption.
Qed.

Lemma Forall_on_channel1 (P Q : Z -> Prop) f p :
  (forall s, P s -> Q s) -> (forall s, P s -> Q (f s)) ->
  Forall P p -> Forall Q (on_channel1 f p).
Proof.
  intros W E H. destruct p as [|c0 [|c1 rest]]; simpl.
  - constructor.
  - apply (Forall_weaken P); assumption.
  - inversion_clear H as [|? ? H0 H']. inversion_clear H' as [|? ? H1 H2].
    constructor; [auto|]. constructor; [auto|].
    apply (Forall_weaken P); assumption.
Qed.

(** ** The samples each method produces *)

Ltac method_eqb := cbn [String.eqb Ascii.eqb Bool.eqb andb].

Lemma astype_int16_u8 a : all_samples is_u8 a -> astype_int16 a = a.
Proof.
  intros H. apply (amap_id_on is_u8); [exact H|].
  intros s Hs. apply wrap16_small. unfold is_u8 in Hs. lia.
Qed.

Lemma xor_sample k s :
  is_u8 s -> valid_key k ->
  wrap16 (Z.lxor s k) = Z.lxor s k /\ is_u8 (Z.lxor s k).
Proof.
  intros Hs Hk.
  assert (H : is_u8 (Z.lxor s k))
    by (apply lxor_u8; [exact Hs|unfold is_u8, valid_key in *; lia]).
  split; [|exact H]. apply wrap16_small. unfold is_u8 in H. lia.
Qed.

Lemma shift_amount k : 0 <= k mod 8 <= 7.
Proof. pose proof (Z.mod_pos_bound k 8). lia. Qed.

Lemma shiftl_sample k s :
  is_u8 s -> wrap16 (Z.shiftl s (k mod 8)) = s * 2 ^ (k mod 8).
Proof.
  intros Hs. pose proof (shift_amount k) as Hn.
  rewrite Z.shiftl_mul_pow2 by lia.
  apply wrap16_small. unfold is_u8 in Hs.
  assert (0 < 2 ^ (k mod 8) <= 2 ^ 7).
  { split; [apply Z.pow_pos_nonneg; lia|].
    apply Z.pow_le_mono_r; lia. }
  change (2 ^ 7) with 128 in *. nia.
Qed.

Lemma add_sample x s :
  is_u8 s -> -32768 <= x < 32512 -> wrap16 (s + x) = s + x.
Proof. unfold is_u8. intros. apply wrap16_small. lia. Qed.

Lemma sub_sample x s :
  is_u8 s -> -32512 < x <= 32768 -> wrap16 (s - x) = s - x.
Proof. unfold is_u8. intros. apply wrap16_small. lia. Qed.

Lemma add_sub_sample x s :
  is_u8 s -> -32000 <= x <= 32000 ->
  wrap16 (wrap16 (s + x) mod 256 - x) mod 256 = s.
Proof.
  intros Hs Hx. rewrite add_sample by (try assumption; lia).
  rewrite sub_sample by (try apply mod256_u8; lia).
  rewrite Zminus_mod_idemp_l.
  replace (s + x - x) with s by lia.
  apply Z.mod_small. unfold is_u8 in Hs. lia.
Qed.

Lemma land_254_u8 s : is_u8 s -> is_u8 (Z.land s 254).
Proof. intros Hs. apply land_u8; [exact Hs|lia]. Qed.

Lemma lor_bit_u8 s (b : bool) :
  is_u8 s -> is_u8 (Z.lor (Z.land s 254) (Z.b2z b)).
Proof.
  intros Hs. apply lor_u8; [apply land_254_u8; exact Hs|].
  destruct b; unfold is_u8; simpl; lia.
Qed.

Lemma shiftr_sample k s : is_u8 s -> is_u8 (Z.shiftr s (k mod 8)).
Proof.
  intros Hs. pose proof (shift_amount k) as Hn.
  rewrite Z.shiftr_div_pow2 by lia. unfold is_u8 in *.
  assert (0 < 2 ^ (k mod 8)) by (apply Z.pow_pos_nonneg; lia).
  split; [apply Z.div_pos; lia|].
  assert (s / 2 ^ (k mod 8) <= s); [|lia].
  apply Z.div_le_upper_bound; nia.
Qed.

(** ** Two arrays of one shape *)

Lemma length_zip_with_same {A B C} (f : A -> B -> C) n l k :
  length l = n -> length k = n -> length (zip_with f l k) = n.
Proof.
  revert n k. induction l as [|x l IH]; intros n [|y k]; simpl; intros Hl Hk;
    try lia.
  destruct n as [|n]; [discriminate|]. f_equal. apply IH; lia.
Qed.

Lemma shape_azip f a b : shape (azip f a b) = shape a.
Proof. destruct a, b; reflexivity. Qed.

Lemma wf_azip f a b : wf a -> wf b -> shape a = shape b -> wf (azip f a b).
Proof.
  destruct a as [h w ra|h w c ra], b as [h' w' rb|h' w' c' rb]; simpl;
    try discriminate; try tauto.
  - intros [Ha Hra] [Hb Hrb] E. injection E as <- <-.
    split; [apply length_zip_with_same; assumption|].
    apply (Forall_zip_with_on (fun r => length r = w) (fun r => length r = w));
      [assumption..|].
    intros x y. apply length_zip_with_same.
  - intros [Ha Hra] [Hb Hrb] E. injection E as <- <- <-.
    split; [apply length_zip_with_same; assumption|].
    apply (Forall_zip_with_on
             (fun r => length r = w /\ Forall (fun p => length p = c) r)
             (fun r => length r = w /\ Forall (fun p => length p = c) r));
      [assumption..|].
    intros x y [Lx Hx] [Ly Hy].
    split; [apply length_zip_with_same; assumption|].
    apply (Forall_zip_with_on (fun p => length p = c) (fun p => length p = c));
      [assumption..|].
    intros p q. apply length_zip_with_same.
Qed.

Lemma all_samples_azip (P Q R : Z -> Prop) f a b :
  all_samples P a -> all_samples Q b -> shape a = shape b ->
  (forall x y, P x -> Q y -> R (f x y)) ->
  all_samples R (azip f a b).
Proof.
  destruct a as [h w ra|h w c ra], b as [h' w' rb|h' w' c' rb]; simpl;
    try discriminate; intros Ha Hb _ E.
  - apply (Forall_zip_with_on (Forall P) (Forall Q)); [assumption..|].
    intros x y. intros Hx Hy.
    apply (Forall_zip_with_on P Q); assumption.
  - apply (Forall_zip_with_on (Forall (Forall P)) (Forall (Forall Q)));
      [assumption..|].
    intros x y Hx Hy.
    apply (Forall_zip_with_on (Forall P) (Forall Q)); [assumption..|].
    intros p q Hp Hq.
    apply (Forall_zip_with_on P Q); assumption.
Qed.

(** The random bits *)

Lemma shape_np_random_bits g a : shape (np_random_bits g a) = shape a.
Proof. destruct a; reflexivity. Qed.

Lemma wf_np_random_bits g a : wf (np_random_bits g a).
Proof.
  destruct a as [h w rows|h w c rows]; simpl;
    (split; [apply length_tabulate|]); apply Forall_tabulate; intros i.
  - apply length_tabulate.
  - split; [apply length_tabulate|].
    apply Forall_tabulate. intros j. apply length_tabulate.
Qed.

Lemma bits_np_random_bits g a : all_samples is_bit (np_random_bits g a).
Proof.
  assert (B : forall b, is_bit (Z.b2z b))
    by (intros []; [right|left]; reflexivity).
  destruct a as [h w rows|h w c rows]; simpl;
    repeat (apply Forall_tabulate; intros ?); apply B.
Qed.

(** ** What the branches of the transforms preserve *)

Lemma swap_branch f a :
  let b := setitem_02 a (getitem_20 a) in
  setitem_1 b (amap f (getitem_1 b)) = map_pixels (swap_pixel f) a.
Proof.
  cbv zeta. rewrite setitem_02_getitem_20, setitem_1_getitem_1.
  rewrite map_pixels_map_pixels. reflexivity.
Qed.

Lemma np_mod_np_add a x k :
  np_mod (np_add a x) k = amap (fun s => wrap16 (s + x) mod k) a.
Proof. unfold np_mod, np_add. apply amap_amap. Qed.

Lemma np_mod_np_sub a x k :
  np_mod (np_sub a x) k = amap (fun s => wrap16 (s - x) mod k) a.
Proof. unfold np_mod, np_sub. apply amap_amap. Qed.

Lemma np_mod_np_left_shift a n k :
  np_mod (np_left_shift a n) k = amap (fun s => wrap16 (Z.shiftl s n) mod k) a.
Proof. unfold np_mod, np_left_shift. apply amap_amap. Qed.

Lemma np_mod_np_right_shift a n k :
  np_mod (np_right_shift a n) k = amap (fun s => Z.shiftr s n mod k) a.
Proof. unfold np_mod, np_right_shift. apply amap_amap. Qed.

Lemma length_swap_pixel f p : length (swap_pixel f p) = length p.
Proof. unfold swap_pixel. rewrite length_on_channel1. apply length_swap02. Qed.

Lemma Forall_swap_pixel f p :
  (forall s, is_u8 s -> is_u8 (f s)) ->
  Forall is_u8 p -> Forall is_u8 (swap_pixel f p).
Proof.
  intros E H. unfold swap_pixel.
  apply (Forall_on_channel1 is_u8 is_u8); auto using Forall_swap02.
Qed.

(** The array after the [if]/[elif] chain has the shape of the input, ... *)
Lemma shape_encrypt_pixels g a key method :
  shape (encrypt_pixels g a key method) = shape a.
Proof.
  unfold encrypt_pixels.
  repeat match goal with |- context [if ?b then _ else _] => destruct b end;
    rewrite ?np_mod_np_add, ?np_mod_np_left_shift, ?swap_branch;
    unfold np_xor, np_or, np_and;
    rewrite ?shape_azip, ?shape_amap, ?shape_map_pixels, ?shape_np_roll,
      ?shape_amap;
    unfold astype_int16; rewrite ?shape_amap; reflexivity.
Qed.

Lemma shape_decrypt_pixels a key method :
  shape (decrypt_pixels a key method) = shape a.
Proof.
  unfold decrypt_pixels.
  repeat match goal with |- context [if ?b then _ else _] => destruct b end;
    rewrite ?np_mod_np_sub, ?np_mod_np_right_shift, ?swap_branch;
    unfold np_xor, np_and;
    rewrite ?shape_amap, ?shape_map_pixels, ?shape_np_roll, ?shape_amap;
    unfold astype_int16; rewrite ?shape_amap; reflexivity.
Qed.

(** ... its data fit that shape, ... *)
Lemma wf_encrypt_pixels g a key method :
  wf a -> wf (encrypt_pixels g a key method).
Proof.
  intros H. unfold encrypt_pixels.
  assert (H' : wf (astype_int16 a)) by (apply wf_amap; exact H).
  repeat match goal with |- context [if ?b then _ else _] => destruct b end;
    rewrite ?np_mod_np_add, ?np_mod_np_left_shift, ?swap_branch;
    unfold np_xor, np_or, np_and;
    auto using wf_amap, wf_np_roll, wf_map_pixels, length_swap_pixel.
  apply wf_azip; [apply wf_amap; exact H'|apply wf_np_random_bits|].
  rewrite shape_amap, shape_np_random_bits. reflexivity.
Qed.

Lemma wf_decrypt_pixels a key method :
  wf a -> wf (decrypt_pixels a key method).
Proof.
  intros H. unfold decrypt_pixels.
  assert (H' : wf (astype_int16 a)) by (apply wf_amap; exact H).
  repeat match goal with |- context [if ?b then _ else _] => destruct b end;
    rewrite ?np_mod_np_sub, ?np_mod_np_right_shift, ?swap_branch;
    unfold np_xor, np_and;
    auto using wf_amap, wf_np_roll, wf_map_pixels, length_swap_pixel.
Qed.

(** ... and its samples are bytes already. *)
Lemma u8_encrypt_pixels g a key method :
  all_samples is_u8 a -> valid_key key ->
  all_samples is_u8 (encrypt_pixels g a key method).
Proof.
  intros H Hk. unfold encrypt_pixels. rewrite (astype_int16_u8 a H).
  repeat match goal with |- context [if ?b then _ else _] => destruct b end;
    rewrite ?np_mod_np_add, ?np_mod_np_left_shift, ?swap_branch;
    unfold np_xor, np_or, np_and; try exact H.
  - apply (all_samples_map_pixels is_u8); [exact H|auto|].
    intros p. apply Forall_swap_pixel. intros s _. apply mod256_u8.
  - apply (all_samples_amap is_u8); [exact H|].
    intros s Hs. destruct (xor_sample key s Hs Hk) as [-> ?]. assumption.
  - apply (all_samples_amap is_u8); [exact H|]. intros s _. apply mod256_u8.
  - apply (all_samples_amap is_u8); [apply all_samples_np_roll; exact H|].
    intros s _. apply mod256_u8.
  - apply (all_samples_azip
             (fun s => exists t, is_u8 t /\ s = Z.land t 254) is_bit).
    + apply (all_samples_amap is_u8); [exact H|]. intros s Hs. exists s. auto.
    + apply bits_np_random_bits.
    + rewrite shape_amap, shape_np_random_bits. reflexivity.
    + intros x y (t & Ht & ->) [-> | ->].
      * apply (lor_bit_u8 t false Ht).
      * apply (lor_bit_u8 t true Ht).
Qed.

Lemma u8_decrypt_pixels a key method :
  all_samples is_u8 a -> valid_key key ->
  all_samples is_u8 (decrypt_pixels a key method).
Proof.
  intros H Hk. unfold decrypt_pixels. rewrite (astype_int16_u8 a H).
  repeat match goal with |- context [if ?b then _ else _] => destruct b end;
    rewrite ?np_mod_np_sub, ?np_mod_np_right_shift, ?swap_branch;
    unfold np_xor, np_and; try exact H.
  - apply (all_samples_map_pixels is_u8); [exact H|auto|].
    intros p. apply Forall_swap_pixel. intros s _. apply mod256_u8.
  - apply (all_samples_amap is_u8); [exact H|].
    intros s Hs. destruct (xor_sample key s Hs Hk) as [-> ?]. assumption.
  - apply (all_samples_amap is_u8); [exact H|]. intros s _. apply mod256_u8.
  - apply (all_samples_amap is_u8); [apply all_samples_np_roll; exact H|].
    intros s _. apply mod256_u8.
  - apply (all_samples_amap is_u8); [exact H|]. apply land_254_u8.
Qed.

(** The clamp and the narrowing to [uint8] change no byte, and PIL accepts
    an array of the input's shape. *)
Lemma np_clip_u8 a : all_samples is_u8 a -> np_clip a 0 255 = a.
Proof. intros H. apply (amap_id_on is_u8); [exact H|]. apply clip_u8. Qed.

Lemma astype_uint8_u8 a : all_samples is_u8 a -> astype_uint8 a = a.
Proof. intros H. apply (amap_id_on is_u8); [exact H|]. apply wrap8u_u8. Qed.

Lemma pil_mode_ok_shape a b :
  shape a = shape b -> pil_mode_ok a = pil_mode_ok b.
Proof.
  destruct a, b; simpl; intros E; try discriminate; [reflexivity|].
  injection E; intros; subst; reflexivity.
Qed.

Lemma nonempty_shape a b : shape a = shape b -> nonempty a -> nonempty b.
Proof.
  destruct a, b; simpl; intros E; try discriminate; injection E; intros; subst;
    assumption.
Qed.

Lemma encrypt_image_from_array_pixels g a key method :
  pixel_buffer a -> valid_key key ->
  encrypt_image_from_array g a key method = Ok (encrypt_pixels g a key method).
Proof.
  intros (Hwf & Hu8 & Hm & Hne) Hk. unfold encrypt_image_from_array.
  pose proof (u8_encrypt_pixels g a key method Hu8 Hk) as H.
  rewrite (np_clip_u8 _ H), (astype_uint8_u8 _ H).
  unfold Image_fromarray.
  rewrite (pil_mode_ok_shape _ a (shape_encrypt_pixels g a key method)), Hm.
  reflexivity.
Qed.

Lemma decrypt_image_from_array_pixels a key method :
  pixel_buffer a -> valid_key key ->
  decrypt_image_from_array a key method = Ok (decrypt_pixels a key method).
Proof.
  intros (Hwf & Hu8 & Hm & Hne) Hk. unfold decrypt_image_from_array.
  pose proof (u8_decrypt_pixels a key method Hu8 Hk) as H.
  rewrite (np_clip_u8 _ H), (astype_uint8_u8 _ H).
  unfold Image_fromarray.
  rewrite (pil_mode_ok_shape _ a (shape_decrypt_pixels a key method)), Hm.
  reflexivity.
Qed.

Lemma pixel_buffer_encrypt_pixels g a key method :
  pixel_buffer a -> valid_key key ->
  pixel_buffer (encrypt_pixels g a key method).
Proof.
  intros (Hwf & Hu8 & Hm & Hne) Hk.
  pose proof (shape_encrypt_pixels g a key method) as S.
  repeat split.
  - apply wf_encrypt_pixels; exact Hwf.
  - apply u8_encrypt_pixels; assumption.
  - rewrite (pil_mode_ok_shape _ a S). exact Hm.
  - apply (nonempty_shape a); [symmetry; exact S|exact Hne].
Qed.

Lemma pixel_buffer_decrypt_pixels a key method :
  pixel_buffer a -> valid_key key -> pixel_buffer (decrypt_pixels a key method).
Proof.
  intros (Hwf & Hu8 & Hm & Hne) Hk.
  pose proof (shape_decrypt_pixels a key method) as S.
  repeat split.
  - apply wf_decrypt_pixels; exact Hwf.
  - apply u8_decrypt_pixels; assumption.
  - rewrite (pil_mode_ok_shape _ a S). exact Hm.
  - apply (nonempty_shape a); [symmetry; exact S|exact Hne].
Qed.

(** ** Round trips of the samples *)

Lemma xor_xor_sample k s :
  is_u8 s -> valid_key k -> wrap16 (Z.lxor (wrap16 (Z.lxor s k)) k) = s.
Proof.
  intros Hs Hk. destruct (xor_sample k s Hs Hk) as [-> H].
  destruct (xor_sample k _ H Hk) as [-> _]. apply lxor_involutive.
Qed.

Lemma sub_add_sample x s :
  is_u8 s -> -32000 <= x <= 32000 ->
  wrap16 (wrap16 (s - x) mod 256 + x) mod 256 = s.
Proof.
  intros Hs Hx. rewrite sub_sample by (try assumption; lia).
  rewrite add_sample by (try apply mod256_u8; lia).
  rewrite Zplus_mod_idemp_l.
  replace (s - x + x) with s by lia.
  apply Z.mod_small. unfold is_u8 in Hs. lia.
Qed.

Lemma swap_pixel_inverse f f' p :
  Forall is_u8 p -> (forall s, is_u8 s -> f' (f s) = s) ->
  swap_pixel f' (swap_pixel f p) = p.
Proof.
  intros H E. unfold swap_pixel.
  destruct p as [|c0 [|c1 [|c2 rest]]]; simpl; try reflexivity.
  - inversion_clear H as [|? ? _ H']. inversion_clear H' as [|? ? H1 _].
    rewrite (E c1 H1). reflexivity.
  - inversion_clear H as [|? ? _ H']. inversion_clear H' as [|? ? H1 _].
    rewrite (E c1 H1). reflexivity.
Qed.

Lemma shift_round_trip_sample k s :
  is_u8 s ->
  Z.shiftr (wrap16 (Z.shiftl s (k mod 8)) mod 256) (k mod 8) mod 256
  = shift_residue k s.
Proof.
  intros Hs. pose proof (shift_amount k) as Hn. unfold shift_residue.
  rewrite (shiftl_sample k s Hs).
  rewrite Z.shiftr_div_pow2 by lia.
  set (n := k mod 8) in *.
  assert (Hp : 0 < 2 ^ n) by (apply Z.pow_pos_nonneg; lia).
  assert (Hq : 0 < 2 ^ (8 - n)) by (apply Z.pow_pos_nonneg; lia).
  assert (E : 256 = 2 ^ (8 - n) * 2 ^ n).
  { rewrite <- Z.pow_add_r by lia. replace (8 - n + n) with 8 by lia.
    reflexivity. }
  rewrite E at 1.
  rewrite Z.mul_mod_distr_r by lia.
  rewrite Z.div_mul by lia.
  apply Z.mod_small.
  pose proof (Z.mod_pos_bound s (2 ^ (8 - n)) Hq).
  assert (2 ^ (8 - n) <= 2 ^ 8) by (apply Z.pow_le_mono_r; lia).
  change (2 ^ 8) with 256 in *. lia.
Qed.

Lemma shift_residue_fixed k s :
  is_u8 s -> (shift_residue k s = s <-> s < 2 ^ (8 - k mod 8)).
Proof.
  intros Hs. pose proof (shift_amount k) as Hn.
  unfold shift_residue, is_u8 in *.
  assert (Hq : 0 < 2 ^ (8 - k mod 8)) by (apply Z.pow_pos_nonneg; lia).
  split.
  - intros E. pose proof (Z.mod_pos_bound s _ Hq). lia.
  - intros H. apply Z.mod_small. lia.
Qed.

Lemma land_254_clear_lsb s : is_u8 s -> Z.land s 254 = clear_lsb s.
Proof.
  intros Hs. apply u8_bits in Hs as [_ Hs]. unfold clear_lsb.
  apply Z.bits_inj'. intros i Hi.
  rewrite Z.land_spec.
  destruct (Z.eq_dec i 0) as [->|Hz].
  - rewrite Z.clearbit_eq. apply andb_false_r.
  - rewrite Z.clearbit_neq by lia.
    destruct (Z_lt_le_dec i 8) as [Hlt|Hge].
    + assert (C : i = 1 \/ i = 2 \/ i = 3 \/ i = 4 \/ i = 5 \/ i = 6 \/ i = 7)
        by lia.
      destruct C as [->|[->|[->|[->|[->|[->| ->]]]]]]; apply andb_true_r.
    + rewrite (Hs i Hge). reflexivity.
Qed.

Lemma clear_lsb_bits s :
  Z.testbit (clear_lsb s) 0 = false /\
  forall i, 0 < i -> Z.testbit (clear_lsb s) i = Z.testbit s i.
Proof.
  unfold clear_lsb. split.
  - apply Z.clearbit_eq.
  - intros i Hi. apply Z.clearbit_neq. lia.
Qed.

(** An array is a fixed point of [amap f] exactly when each sample is. *)
Lemma map_fixed_iff {A} (f : A -> A) l :
  map f l = l <-> Forall (fun x => f x = x) l.
Proof.
  induction l as [|x l IH]; simpl.
  - split; [constructor|reflexivity].
  - split.
    + intros E. injection E as Ex El.
      constructor; [exact Ex|apply IH; exact El].
    + intros H. inversion_clear H as [|? ? Hx Hl]. rewrite Hx.
      f_equal. apply IH; exact Hl.
Qed.

Lemma Forall_iff_on {A} (P Q : A -> Prop) l :
  (forall x, P x <-> Q x) -> Forall P l <-> Forall Q l.
Proof.
  intros E. split; intros H; apply (Forall_weaken _ _ l H); intros x; apply E.
Qed.

Lemma amap_fixed_iff f a : amap f a = a <-> all_samples (fun s => f s = s) a.
Proof.
  destruct a as [h w rows|h w c rows]; simpl.
  - rewrite <- (Forall_iff_on (fun r => map f r = r))
      by (intros r; apply map_fixed_iff).
    rewrite <- map_fixed_iff.
    split; [intros E; injection E; auto|intros ->; reflexivity].
  - rewrite <- (Forall_iff_on (fun r => map (map f) r = r)).
    + rewrite <- map_fixed_iff.
      split; [intros E; injection E; auto|intros ->; reflexivity].
    + intros r. rewrite map_fixed_iff.
      apply Forall_iff_on. intros p. apply map_fixed_iff.
Qed.

Lemma all_samples_and (P Q : Z -> Prop) a :
  all_samples P a -> all_samples Q a -> all_samples (fun s => P s /\ Q s) a.
Proof.
  assert (F : forall {A} (P Q : A -> Prop) l,
             Forall P l -> Forall Q l -> Forall (fun x => P x /\ Q x) l).
  { intros A P' Q' l HP. induction HP; intros HQ; inversion_clear HQ;
      constructor; auto. }
  destruct a as [h w rows|h w c rows]; simpl; intros HP HQ.
  - apply (Forall_weaken _ _ rows (F _ _ _ rows HP HQ)).
    intros r [? ?]. auto.
  - apply (Forall_weaken _ _ rows (F _ _ _ rows HP HQ)).
    intros r [Hp Hq]. apply (Forall_weaken _ _ r (F _ _ _ r Hp Hq)).
    intros p [? ?]. auto.
Qed.

(** ** Round trips of the arrays *)

Lemma has_rgb_shape a b : shape a = shape b -> has_rgb a = has_rgb b.
Proof.
  destruct a, b; simpl; intros E; try discriminate; [reflexivity|].
  injection E; intros; subst; reflexivity.
Qed.

Lemma encrypt_pixels_swap g a key :
  all_samples is_u8 a ->
  encrypt_pixels g a key "swap"
  = if has_rgb a
    then map_pixels (swap_pixel (fun s => wrap16 (s + key) mod 256)) a
    else a.
Proof.
  intros H. unfold encrypt_pixels. rewrite (astype_int16_u8 a H). method_eqb.
  destruct (has_rgb a); [|reflexivity].
  rewrite np_mod_np_add. apply swap_branch.
Qed.

Lemma decrypt_pixels_swap a key :
  all_samples is_u8 a ->
  decrypt_pixels a key "swap"
  = if has_rgb a
    then map_pixels (swap_pixel (fun s => wrap16 (s - key) mod 256)) a
    else a.
Proof.
  intros H. unfold decrypt_pixels. rewrite (astype_int16_u8 a H). method_eqb.
  destruct (has_rgb a); [|reflexivity].
  rewrite np_mod_np_sub. apply swap_branch.
Qed.

Lemma round_trip_swap g a key :
  all_samples is_u8 a -> valid_key key ->
  decrypt_pixels (encrypt_pixels g a key "swap") key "swap" = a.
Proof.
  intros H Hk.
  rewrite decrypt_pixels_swap by (apply u8_encrypt_pixels; assumption).
  rewrite (has_rgb_shape _ a (shape_encrypt_pixels g a key "swap")).
  rewrite encrypt_pixels_swap by exact H.
  destruct (has_rgb a); [|reflexivity].
  rewrite map_pixels_map_pixels.
  apply (map_pixels_id_on is_u8); [exact H|].
  intros p Hp. apply swap_pixel_inverse; [exact Hp|].
  intros s Hs. apply add_sub_sample; [exact Hs|]. unfold valid_key in Hk. lia.
Qed.

Lemma round_trip_xor g a key :
  all_samples is_u8 a -> valid_key key ->
  decrypt_pixels (encrypt_pixels g a key "xor") key "xor" = a.
Proof.
  intros H Hk.
  pose proof (u8_encrypt_pixels g a key "xor" H Hk) as HE.
  unfold decrypt_pixels. rewrite (astype_int16_u8 _ HE). method_eqb.
  unfold encrypt_pixels. rewrite (astype_int16_u8 a H). method_eqb.
  unfold np_xor. rewrite amap_amap.
  apply (amap_id_on is_u8); [exact H|].
  intros s Hs. apply xor_xor_sample; assumption.
Qed.

Lemma round_trip_aes g a key :
  wf a -> all_samples is_u8 a -> valid_key key ->
  decrypt_pixels (encrypt_pixels g a key "aes") key "aes" = a.
Proof.
  intros Hwf H Hk.
  pose proof (u8_encrypt_pixels g a key "aes" H Hk) as HE.
  unfold decrypt_pixels. rewrite (astype_int16_u8 _ HE). method_eqb.
  unfold encrypt_pixels. rewrite (astype_int16_u8 a H). method_eqb.
  rewrite np_mod_np_add, np_mod_np_sub, np_roll_amap, amap_amap.
  rewrite (np_roll_inverse a key Hwf).
  apply (amap_id_on is_u8); [exact H|].
  intros s Hs. apply add_sub_sample; [exact Hs|]. unfold valid_key in Hk. lia.
Qed.

Lemma round_trip_shift g a key :
  all_samples is_u8 a -> valid_key key ->
  decrypt_pixels (encrypt_pixels g a key "shift") key "shift"
  = amap (shift_residue key) a.
Proof.
  intros H Hk.
  pose proof (u8_encrypt_pixels g a key "shift" H Hk) as HE.
  unfold decrypt_pixels. rewrite (astype_int16_u8 _ HE). method_eqb.
  unfold encrypt_pixels. rewrite (astype_int16_u8 a H). method_eqb.
  rewrite np_mod_np_left_shift, np_mod_np_right_shift, amap_amap.
  apply (amap_ext_on is_u8); [exact H|].
  intros s Hs. apply shift_round_trip_sample. exact Hs.
Qed.

Lemma round_trip_pixels g a key method :
  pixel_buffer a -> valid_key key ->
  round_trip g a key method
  = Ok (decrypt_pixels (encrypt_pixels g a key method) key method).
Proof.
  intros Ha Hk. unfold round_trip.
  rewrite (encrypt_image_from_array_pixels g a key method Ha Hk). simpl.
  apply decrypt_image_from_array_pixels; [|exact Hk].
  apply pixel_buffer_encrypt_pixels; assumption.
Qed.

(** ** The sample inputs are pixel buffers *)

Lemma pixel_buffer_buf_gray : pixel_buffer buf_gray.
Proof. repeat split; repeat constructor; unfold is_u8; lia. Defined.

Lemma pixel_buffer_buf_rgb : pixel_buffer buf_rgb.
Proof. repeat split; repeat constructor; unfold is_u8; lia. Defined.

Lemma pixel_buffer_buf_zero : pixel_buffer buf_zero.
Proof. repeat split; repeat constructor; unfold is_u8; lia. Defined.

Lemma all_samples_iff_on (P Q R : Z -> Prop) a :
  all_samples P a -> (forall s, P s -> (Q s <-> R s)) ->
  (all_samples Q a <-> all_samples R a).
Proof.
  intros HP E. split; intros H.
  - apply (all_samples_weaken _ _ a (all_samples_and P Q a HP H)).
    intros s [Hp Hq]. apply (E s Hp). exact Hq.
  - apply (all_samples_weaken _ _ a (all_samples_and P R a HP H)).
    intros s [Hp Hr]. apply (E s Hp). exact Hr.
Qed.

Lemma recognized_false method :
  recognized method = false ->
  String.eqb method "swap" = false /\ String.eqb method "xor" = false /\
  String.eqb method "shift" = false /\ String.eqb method "aes" = false /\
  String.eqb method "steganography" = false.
Proof.
  unfold recognized, methods. simpl. intros H.
  repeat (apply orb_false_elim in H as [? H]). tauto.
Qed.

(** * The transform engine *)

(** C1: for every pixel buffer and every key in [1,255], decrypting the
    encryption gives the buffer back, sample for sample, for the methods
    xor, swap and aes; for swap this covers the buffers with fewer than
    three channels, which the swap step leaves as they are. *)
Theorem round_trip_exact g a key method :
  pixel_buffer a -> valid_key key ->
  In method ["xor"; "swap"; "aes"]%string ->
  round_trip g a key method = Ok a /\
  (has_rgb a = false ->
   encrypt_image_from_array g a key "swap" = Ok a /\
   decrypt_image_from_array a key "swap" = Ok a).
Proof.
  intros Ha Hk Hm. pose proof Ha as (Hwf & Hu8 & _).
  split.
  - rewrite (round_trip_pixels g a key method Ha Hk). f_equal.
    destruct Hm as [<-|[<-|[<-|[]]]].
    + apply round_trip_xor; assumption.
    + apply round_trip_swap; assumption.
    + apply round_trip_aes; assumption.
  - intros Hc. split.
    + rewrite (encrypt_image_from_array_pixels g a key _ Ha Hk).
      rewrite (encrypt_pixels_swap g a key Hu8), Hc. reflexivity.
    + rewrite (decrypt_image_from_array_pixels a key _ Ha Hk).
      rewrite (decrypt_pixels_swap a key Hu8), Hc. reflexivity.
Qed.

Lemma round_trip_exact_witness :
  pixel_buffer buf_rgb /\ valid_key 77 /\
  In "aes"%string ["xor"; "swap"; "aes"]%string /\
  round_trip rng_ones buf_rgb 77 "aes" = Ok buf_rgb.
Proof.
  assert (Hk : valid_key 77) by (unfold valid_key; lia).
  assert (Hm : In "aes"%string ["xor"; "swap"; "aes"]%string)
    by (simpl; tauto).
  split; [apply pixel_buffer_buf_rgb|]. split; [exact Hk|]. split; [exact Hm|].
  exact (proj1 (round_trip_exact rng_ones buf_rgb 77 "aes"
                  pixel_buffer_buf_rgb Hk Hm)).
Defined.

(** C2, as the claim states it, fails: the all-zero buffer survives the
    round trip under key 1, although 1 mod 8 is not 0. *)
Lemma shift_round_trip_counterexample :
  ~ (round_trip rng_ones buf_zero 1 "shift" = Ok buf_zero <-> 1 mod 8 = 0).
Proof.
  intros [H _].
  assert (E : round_trip rng_ones buf_zero 1 "shift" = Ok buf_zero)
    by (vm_compute; reflexivity).
  specialize (H E). discriminate H.
Qed.

(** C2, amended: for the shift method, every pixel buffer and every key in
    [1,255], the round trip keeps of each sample its remainder modulo
    2^(8 - key mod 8), so it changes exactly the samples that are at least
    2^(8 - key mod 8); it gives the buffer back exactly when every sample
    is below that bound, which is the case of every buffer when
    key mod 8 = 0. *)
Theorem shift_round_trip g a key :
  pixel_buffer a -> valid_key key ->
  round_trip g a key "shift" = Ok (amap (shift_residue key) a) /\
  (forall s, is_u8 s ->
     (shift_residue key s = s <-> s < 2 ^ (8 - key mod 8))) /\
  (round_trip g a key "shift" = Ok a <->
   all_samples (fun s => s < 2 ^ (8 - key mod 8)) a) /\
  (key mod 8 = 0 -> round_trip g a key "shift" = Ok a).
Proof.
  intros Ha Hk. pose proof Ha as (Hwf & Hu8 & _).
  assert (E : round_trip g a key "shift" = Ok (amap (shift_residue key) a)).
  { rewrite (round_trip_pixels g a key _ Ha Hk). f_equal.
    apply round_trip_shift; assumption. }
  assert (I : round_trip g a key "shift" = Ok a <->
              all_samples (fun s => s < 2 ^ (8 - key mod 8)) a).
  { rewrite E.
    rewrite <- (all_samples_iff_on is_u8 (fun s => shift_residue key s = s)
                  _ a Hu8 (shift_residue_fixed key)).
    rewrite <- amap_fixed_iff.
    split; [intros Q; injection Q; auto|intros ->; reflexivity]. }
  split; [exact E|]. split; [apply shift_residue_fixed|]. split; [exact I|].
  intros Hz. apply I. rewrite Hz.
  apply (all_samples_weaken is_u8); [exact Hu8|].
  unfold is_u8. intros s Hs. change (2 ^ (8 - 0)) with 256. lia.
Qed.

Lemma shift_round_trip_witness :
  pixel_buffer buf_gray /\ valid_key 3 /\
  round_trip rng_ones buf_gray 3 "shift" = Ok (Arr2 1 2 [[7; 8]]).
Proof.
  assert (Hk : valid_key 3) by (unfold valid_key; lia).
  split; [apply pixel_buffer_buf_gray|]. split; [exact Hk|].
  exact (proj1 (shift_round_trip rng_ones buf_gray 3 pixel_buffer_buf_gray Hk)).
Defined.

(** C3: for each of the five methods and every key in [1,255], encryption
    and decryption of a pixel buffer return a buffer of the same shape
    (height, width, channel count), whose data fill that shape. *)
Theorem shape_preserved g a key method :
  pixel_buffer a -> valid_key key -> In method methods ->
  (exists e, encrypt_image_from_array g a key method = Ok e /\
             shape e = shape a /\ wf e) /\
  (exists d, decrypt_image_from_array a key method = Ok d /\
             shape d = shape a /\ wf d).
Proof.
  intros Ha Hk _. pose proof Ha as (Hwf & _). split.
  - exists (encrypt_pixels g a key method).
    split; [apply encrypt_image_from_array_pixels; assumption|].
    split; [apply shape_encrypt_pixels|apply wf_encrypt_pixels; exact Hwf].
  - exists (decrypt_pixels a key method).
    split; [apply decrypt_image_from_array_pixels; assumption|].
    split; [apply shape_decrypt_pixels|apply wf_decrypt_pixels; exact Hwf].
Qed.

Lemma shape_preserved_witness :
  pixel_buffer buf_rgb /\ valid_key 200 /\ In "steganography"%string methods /\
  (exists e,
     encrypt_image_from_array rng_ones buf_rgb 200 "steganography" = Ok e /\
     shape e = [2; 1; 3]%nat /\ wf e).
Proof.
  assert (Hk : valid_key 200) by (unfold valid_key; lia).
  assert (Hm : In "steganography"%string methods) by (simpl; tauto).
  split; [apply pixel_buffer_buf_rgb|]. split; [exact Hk|]. split; [exact Hm|].
  exact (proj1 (shape_preserved rng_ones buf_rgb 200 "steganography"
                  pixel_buffer_buf_rgb Hk Hm)).
Defined.

(** C4, as the claim states it, fails: with the method "rot13" both
    functions return a buffer (the input), not an error. *)
Lemma unknown_method_counterexample :
  recognized "rot13" = false /\
  encrypt_image_from_array rng_ones buf_gray 5 "rot13" = Ok buf_gray /\
  decrypt_image_from_array buf_gray 5 "rot13" = Ok buf_gray.
Proof. repeat split; vm_compute; reflexivity. Qed.

(** C4, amended: for every pixel buffer and every key, when the method is
    none of the five identifiers, encryption and decryption raise no error
    and return the input buffer unchanged. *)
Theorem unknown_method_identity g a key method :
  pixel_buffer a -> recognized method = false ->
  encrypt_image_from_array g a key method = Ok a /\
  decrypt_image_from_array a key method = Ok a.
Proof.
  intros (Hwf & Hu8 & Hm & _) Hr.
  destruct (recognized_false method Hr) as (E1 & E2 & E3 & E4 & E5).
  unfold encrypt_image_from_array, decrypt_image_from_array,
    encrypt_pixels, decrypt_pixels.
  rewrite E1, E2, E3, E4, E5, (astype_int16_u8 a Hu8), (np_clip_u8 a Hu8),
    (astype_uint8_u8 a Hu8).
  unfold Image_fromarray. rewrite Hm. split; reflexivity.
Qed.

Lemma unknown_method_identity_witness :
  pixel_buffer buf_rgb /\ recognized "rot13" = false /\
  encrypt_image_from_array rng_ones buf_rgb 300 "rot13" = Ok buf_rgb /\
  decrypt_image_from_array buf_rgb 300 "rot13" = Ok buf_rgb.
Proof.
  assert (Hr : recognized "rot13" = false) by reflexivity.
  split; [apply pixel_buffer_buf_rgb|]. split; [exact Hr|].
  exact (unknown_method_identity rng_ones buf_rgb 300 "rot13"
           pixel_buffer_buf_rgb Hr).
Defined.

(** C8: for every pixel buffer and every key in [1,255], each sample of
    the steganography decryption is the input sample with its least
    significant bit cleared and its other bits unchanged, whether or not
    the buffer comes from an encryption. *)
Theorem steganography_decrypt_clears_lsb a key :
  pixel_buffer a -> valid_key key ->
  decrypt_image_from_array a key "steganography" = Ok (amap clear_lsb a) /\
  forall s, Z.testbit (clear_lsb s) 0 = false /\
            forall i, 0 < i -> Z.testbit (clear_lsb s) i = Z.testbit s i.
Proof.
  intros Ha Hk. pose proof Ha as (_ & Hu8 & _).
  split; [|apply clear_lsb_bits].
  rewrite (decrypt_image_from_array_pixels a key _ Ha Hk). f_equal.
  unfold decrypt_pixels. rewrite (astype_int16_u8 a Hu8). method_eqb.
  apply (amap_ext_on is_u8); [exact Hu8|]. apply land_254_clear_lsb.
Qed.

Lemma steganography_decrypt_clears_lsb_witness :
  pixel_buffer buf_gray /\ valid_key 9 /\
  decrypt_image_from_array buf_gray 9 "steganography"
  = Ok (Arr2 1 2 [[6; 200]]).
Proof.
  assert (Hk : valid_key 9) by (unfold valid_key; lia).
  split; [apply pixel_buffer_buf_gray|]. split; [exact Hk|].
  exact (proj1 (steganography_decrypt_clears_lsb buf_gray 9
                  pixel_buffer_buf_gray Hk)).
Defined.

(** C10: for every pixel buffer, every key in [1,255] and each of the five
    methods, the array reached before the final clamp has all its samples
    in [0,255], in encryption and in decryption, so that the clamp to
    [0,255] changes nothing. *)
Theorem clamp_is_identity g a key method :
  pixel_buffer a -> valid_key key -> In method methods ->
  (all_samples is_u8 (encrypt_pixels g a key method) /\
   np_clip (encrypt_pixels g a key method) 0 255
   = encrypt_pixels g a key method) /\
  (all_samples is_u8 (decrypt_pixels a key method) /\
   np_clip (decrypt_pixels a key method) 0 255
   = decrypt_pixels a key method).
Proof.
  intros (_ & Hu8 & _) Hk _.
  pose proof (u8_encrypt_pixels g a key method Hu8 Hk) as He.
  pose proof (u8_decrypt_pixels a key method Hu8 Hk) as Hd.
  auto using np_clip_u8.
Qed.

Lemma clamp_is_identity_witness :
  pixel_buffer buf_rgb /\ valid_key 255 /\ In "aes"%string methods /\
  np_clip (encrypt_pixels rng_ones buf_rgb 255 "aes") 0 255
  = encrypt_pixels rng_ones buf_rgb 255 "aes".
Proof.
  assert (Hk : valid_key 255) by (unfold valid_key; lia).
  assert (Hm : In "aes"%string methods) by (simpl; tauto).
  split; [apply pixel_buffer_buf_rgb|]. split; [exact Hk|]. split; [exact Hm|].
  exact (proj2 (proj1 (clamp_is_identity rng_ones buf_rgb 255 "aes"
                         pixel_buffer_buf_rgb Hk Hm))).
Defined.

(** * The store: the caller's arrays are not written to *)

Section StoreFacts.
Implicit Types (h : Store.heap) (l r : Store.loc).

Lemma returns_bind {A B} (m : Store.M A) (k : A -> Store.M B) h Q :
  Store.returns m h (fun x h' => Store.returns (k x) h' Q) ->
  Store.returns (Store.bind m k) h Q.
Proof.
  intros (x & h' & E & y & h'' & E' & HQ).
  exists y, h''. unfold Store.bind. rewrite E. auto.
Qed.

Lemma returns_ret {A} (x : A) h (Q : A -> Store.heap -> Prop) :
  Q x h -> Store.returns (Store.ret x) h Q.
Proof. intros HQ. exists x, h. auto. Qed.

Lemma returns_get l a h (Q : ndarray -> Store.heap -> Prop) :
  h !! l = Some a -> Q a h -> Store.returns (Store.get l) h Q.
Proof. intros E HQ. exists a, h. unfold Store.get. rewrite E. auto. Qed.

Lemma fresh_unused h : h !! fresh (dom h) = None.
Proof. apply not_elem_of_dom. apply is_fresh. Qed.

Lemma returns_new a h (Q : Store.loc -> Store.heap -> Prop) :
  (forall r, h !! r = None -> Q r (<[r := a]> h)) ->
  Store.returns (Store.new a) h Q.
Proof.
  intros HQ. exists (fresh (dom h)), (<[fresh (dom h) := a]> h).
  split; [reflexivity|]. apply HQ, fresh_unused.
Qed.

Lemma returns_call1 f l a h (Q : Store.loc -> Store.heap -> Prop) :
  h !! l = Some a ->
  (forall r, h !! r = None -> Q r (<[r := f a]> h)) ->
  Store.returns (Store.call1 f l) h Q.
Proof.
  intros E HQ. apply returns_bind, (returns_get l a); [exact E|].
  apply returns_new, HQ.
Qed.

Lemma returns_call2 f l1 l2 a b h (Q : Store.loc -> Store.heap -> Prop) :
  h !! l1 = Some a -> h !! l2 = Some b ->
  (forall r, h !! r = None -> Q r (<[r := f a b]> h)) ->
  Store.returns (Store.call2 f l1 l2) h Q.
Proof.
  intros E1 E2 HQ. apply returns_bind, (returns_get l1 a); [exact E1|].
  apply returns_bind, (returns_get l2 b); [exact E2|].
  apply returns_new, HQ.
Qed.

Lemma returns_setitem f l1 l2 a b h (Q : unit -> Store.heap -> Prop) :
  h !! l1 = Some a -> h !! l2 = Some b ->
  Q tt (<[l1 := f a b]> h) ->
  Store.returns (Store.setitem f l1 l2) h Q.
Proof.
  intros E1 E2 HQ. apply returns_bind, (returns_get l1 a); [exact E1|].
  apply returns_bind, (returns_get l2 b); [exact E2|].
  eexists tt, _. split; [reflexivity|exact HQ].
Qed.

Lemma returns_Image_fromarray l a h (Q : Store.loc -> Store.heap -> Prop) :
  h !! l = Some a -> pil_mode_ok a = true -> Q l h ->
  Store.returns (Store.Image_fromarray l) h Q.
Proof.
  intros E Hm HQ. apply returns_bind, (returns_get l a); [exact E|].
  rewrite Hm. apply returns_ret, HQ.
Qed.

Lemma returns_weaken {A} (m : Store.M A) h (Q Q' : A -> Store.heap -> Prop) :
  Store.returns m h Q -> (forall x h', Q x h' -> Q' x h') ->
  Store.returns m h Q'.
Proof. intros (x & h' & E & HQ) W. exists x, h'. auto. Qed.
End StoreFacts.

(** A location found unused after some insertions differs from each of
    the inserted ones. *)
Ltac split_unused H :=
  try (apply lookup_insert_None in H;
       let N := fresh "N" in destruct H as [H N]; split_unused H).

Ltac find_array :=
  repeat first [ apply lookup_insert_eq
               | rewrite lookup_insert_ne by congruence ];
  try eassumption.

Ltac run_call1 :=
  eapply returns_call1; [find_array|];
  let r := fresh "r" in let U := fresh "U" in intros r U; split_unused U.

Ltac run_call2 :=
  eapply returns_call2; [find_array|find_array|];
  let r := fresh "r" in let U := fresh "U" in intros r U; split_unused U.

Ltac run_setitem :=
  eapply returns_setitem; [find_array|find_array|].

Ltac run_step :=
  first [ apply returns_bind; first [run_call1 | run_setitem]
        | run_call1 ].

Ltac kept_store :=
  repeat (apply insert_subseteq_r; [assumption|]); reflexivity.

Section StoreRuns.
Implicit Types (h : Store.heap) (l r p : Store.loc).

(** The store computation allocates the array the value model computes
    and leaves every array of the initial store as it was. *)
Lemma store_encrypt_pixels g h p a key method :
  h !! p = Some a ->
  Store.returns (Store.encrypt_pixels g p key method) h
    (fun r h' => h ⊆ h' /\ h !! r = None /\
                 h' !! r = Some (encrypt_pixels g a key method)).
Proof.
  intros Hp. unfold Store.encrypt_pixels, encrypt_pixels.
  run_step.
  destruct (String.eqb method "swap").
  { eapply returns_bind, returns_get; [find_array|].
    destruct (has_rgb (astype_int16 a)).
    - do 6 run_step. apply returns_ret.
      split; [kept_store|]. split; [assumption|]. find_array.
    - apply returns_ret.
      split; [kept_store|]. split; [assumption|]. find_array. }
  destruct (String.eqb method "xor").
  { run_step. split; [kept_store|]. split; [assumption|]. find_array. }
  destruct (String.eqb method "shift").
  { do 2 run_step. split; [kept_store|]. split; [assumption|]. find_array. }
  destruct (String.eqb method "aes").
  { do 3 run_step. split; [kept_store|]. split; [assumption|]. find_array. }
  destruct (String.eqb method "steganography").
  { do 2 run_step. run_call2.
    split; [kept_store|]. split; [assumption|]. find_array. }
  apply returns_ret. split; [kept_store|]. split; [assumption|]. find_array.
Qed.

Lemma store_decrypt_pixels h p a key method :
  h !! p = Some a ->
  Store.returns (Store.decrypt_pixels p key method) h
    (fun r h' => h ⊆ h' /\ h !! r = None /\
                 h' !! r = Some (decrypt_pixels a key method)).
Proof.
  intros Hp. unfold Store.decrypt_pixels, decrypt_pixels.
  run_step.
  destruct (String.eqb method "swap").
  { eapply returns_bind, returns_get; [find_array|].
    destruct (has_rgb (astype_int16 a)).
    - do 6 run_step. apply returns_ret.
      split; [kept_store|]. split; [assumption|]. find_array.
    - apply returns_ret.
      split; [kept_store|]. split; [assumption|]. find_array. }
  destruct (String.eqb method "xor").
  { run_step. split; [kept_store|]. split; [assumption|]. find_array. }
  destruct (String.eqb method "shift").
  { do 2 run_step. split; [kept_store|]. split; [assumption|]. find_array. }
  destruct (String.eqb method "aes").
  { do 3 run_step. split; [kept_store|]. split; [assumption|]. find_array. }
  destruct (String.eqb method "steganography").
  { run_step. split; [kept_store|]. split; [assumption|]. find_array. }
  apply returns_ret. split; [kept_store|]. split; [assumption|]. find_array.
Qed.

Lemma store_to_image h l v :
  h !! l = Some v -> all_samples is_u8 v -> pil_mode_ok v = true ->
  Store.returns (Store.to_image l) h
    (fun r h' => h ⊆ h' /\ h !! r = None /\ h' !! r = Some v).
Proof.
  intros Hl Hu8 Hm. unfold Store.to_image.
  do 2 run_step.
  rewrite (np_clip_u8 v Hu8), (astype_uint8_u8 v Hu8).
  eapply returns_Image_fromarray; [find_array|exact Hm|].
  split; [kept_store|]. split; [assumption|]. find_array.
Qed.

Lemma leaves_input_intro h h1 h2 p a e r1 r :
  h !! p = Some a ->
  h ⊆ h1 -> h !! r1 = None ->
  h1 ⊆ h2 -> h1 !! r = None -> h2 !! r = Some e ->
  Store.leaves_input h p a e r h2.
Proof.
  intros Hp S1 _ S2 U Hr.
  assert (S : h ⊆ h2) by (etransitivity; eassumption).
  assert (Ur : h !! r = None) by (eapply lookup_weaken_None; eassumption).
  unfold Store.leaves_input. split; [eapply lookup_weaken; eassumption|].
  split; [intros ->; congruence|]. split; [exact Ur|].
  split; [|exact Hr].
  intros l x Hl. eapply lookup_weaken; eassumption.
Qed.
End StoreRuns.

(** C9: encryption and decryption of the caller's array, for every pixel
    buffer, key in [1,255] and recognized method, leave that array (and
    every other array of the caller) with the contents it had, and return
    their result in a newly allocated array, distinct from the input. *)
Theorem transforms_leave_input g (h : Store.heap) p a key method :
  h !! p = Some a -> pixel_buffer a -> valid_key key -> In method methods ->
  (exists e, encrypt_image_from_array g a key method = Ok e /\
     Store.returns (Store.encrypt_image_from_array g p key method) h
       (Store.leaves_input h p a e)) /\
  (exists d, decrypt_image_from_array a key method = Ok d /\
     Store.returns (Store.decrypt_image_from_array p key method) h
       (Store.leaves_input h p a d)).
Proof.
  intros Hp Ha Hk _. split.
  - exists (encrypt_pixels g a key method).
    split; [apply encrypt_image_from_array_pixels; assumption|].
    destruct (pixel_buffer_encrypt_pixels g a key method Ha Hk)
      as (_ & Hu8 & Hm & _).
    unfold Store.encrypt_image_from_array. apply returns_bind.
    eapply returns_weaken; [apply store_encrypt_pixels; exact Hp|].
    intros r1 h1 (S1 & U1 & V1). cbv beta.
    eapply returns_weaken; [apply (store_to_image h1 r1 _ V1 Hu8 Hm)|].
    intros r h2 (S2 & U2 & V2). cbv beta.
    eapply leaves_input_intro; eassumption.
  - exists (decrypt_pixels a key method).
    split; [apply decrypt_image_from_array_pixels; assumption|].
    destruct (pixel_buffer_decrypt_pixels a key method Ha Hk)
      as (_ & Hu8 & Hm & _).
    unfold Store.decrypt_image_from_array. apply returns_bind.
    eapply returns_weaken; [apply store_decrypt_pixels; exact Hp|].
    intros r1 h1 (S1 & U1 & V1). cbv beta.
    eapply returns_weaken; [apply (store_to_image h1 r1 _ V1 Hu8 Hm)|].
    intros r h2 (S2 & U2 & V2). cbv beta.
    eapply leaves_input_intro; eassumption.
Qed.

Lemma transforms_leave_input_witness :
  ({[ 5%nat := buf_rgb ]} : Store.heap) !! 5%nat = Some buf_rgb /\
  pixel_buffer buf_rgb /\ valid_key 42 /\ In "swap"%string methods /\
  exists e, encrypt_image_from_array rng_ones buf_rgb 42 "swap" = Ok e /\
    Store.returns (Store.encrypt_image_from_array rng_ones 5%nat 42 "swap")
      {[ 5%nat := buf_rgb ]}
      (Store.leaves_input {[ 5%nat := buf_rgb ]} 5%nat buf_rgb e).
Proof.
  assert (Hp : ({[ 5%nat := buf_rgb ]} : Store.heap) !! 5%nat = Some buf_rgb)
    by apply lookup_singleton_eq.
  assert (Hk : valid_key 42) by (unfold valid_key; lia).
  assert (Hm : In "swap"%string methods) by (simpl; tauto).
  split; [exact Hp|]. split; [apply pixel_buffer_buf_rgb|].
  split; [exact Hk|]. split; [exact Hm|].
  exact (proj1 (transforms_leave_input rng_ones _ 5%nat buf_rgb 42 "swap"
                  Hp pixel_buffer_buf_rgb Hk Hm)).
Defined.

(** * The analyzer *)

(** ** Floats *)

Lemma binary_round_aux_sign s m e l :
  match binary_round_aux prec emax s m e l with
  | S754_zero s' | S754_infinity s' | S754_finite s' _ _ => s' = s
  | S754_nan => True
  end.
Proof.
  unfold binary_round_aux.
  destruct (shr_fexp prec emax m e l) as [mrs' e'].
  destruct (shr_fexp prec emax _ e' loc_Exact) as [mrs'' e''].
  destruct (shr_m mrs''); [reflexivity| |exact I].
  destruct (e'' <=? emax - prec); reflexivity.
Qed.

Lemma fmul_is_finite x y :
  is_finite (fmul x y) = true -> is_finite x = true /\ is_finite y = true.
Proof. destruct x, y; simpl; intros H; try discriminate H; auto. Qed.

Lemma fmul_finite_sign x y s m e :
  fmul x y = S754_finite s m e ->
  exists sx mx ex sy my ey,
    x = S754_finite sx mx ex /\ y = S754_finite sy my ey /\ s = xorb sx sy.
Proof.
  destruct x as [sx|sx| |sx mx ex], y as [sy|sy| |sy my ey]; simpl;
    intros H; try discriminate H.
  exists sx, mx, ex, sy, my, ey. split; [reflexivity|]. split; [reflexivity|].
  pose proof (binary_round_aux_sign (xorb sx sy) (Zpos (mx * my)) (ex + ey)
                loc_Exact) as S.
  rewrite H in S. exact S.
Qed.

Lemma Z2F_sign n s m e : 0 < n -> Z2F n = S754_finite s m e -> s = false.
Proof.
  intros Hn. unfold Z2F, binary_normalize.
  destruct n as [|p|p]; try lia.
  unfold binary_round.
  destruct (shl_align p 0 _) as [mz ez]. intros H.
  pose proof (binary_round_aux_sign false (Zpos mz) ez loc_Exact) as S.
  rewrite H in S. exact S.
Qed.

Lemma float_nonneg_finite s m e :
  float_nonneg (S754_finite s m e) = true -> s = false.
Proof.
  unfold float_nonneg, SFleb. simpl. destruct s; [discriminate|reflexivity].
Qed.

Lemma scale_trunc_nonneg sm e : 0 <= sm -> scale_trunc sm e = scale_floor sm e.
Proof.
  intros H. unfold scale_trunc, scale_floor.
  destruct (0 <=? e) eqn:He; [reflexivity|].
  apply Z.leb_gt in He.
  apply Z.quot_div_nonneg; [exact H|]. apply Z.pow_pos_nonneg; lia.
Qed.

Lemma py_int_nonneg x :
  is_finite x = true -> float_nonneg x = true -> py_int x = Ok (float_floor x).
Proof.
  destruct x as [s|s| |s m e]; simpl; intros F N; try discriminate F.
  - reflexivity.
  - apply float_nonneg_finite in N. subst s. simpl.
    rewrite scale_trunc_nonneg by lia. reflexivity.
Qed.

Lemma SFcompare_swap x y :
  SFcompare y x = option_map CompOpp (SFcompare x y).
Proof.
  destruct x as [sx|sx| |sx mx ex], y as [sy|sy| |sy my ey]; simpl;
    try reflexivity;
    try (destruct sx; reflexivity); try (destruct sy; reflexivity);
    try (destruct sx, sy; reflexivity).
  destruct sx, sy; simpl; try reflexivity.
  - rewrite (Z.compare_antisym ey ex).
    destruct (ey ?= ex); simpl; try reflexivity.
    f_equal. rewrite CompOpp_involutive.
    exact (Pos.compare_cont_antisym my mx Eq).
  - rewrite (Z.compare_antisym ey ex).
    destruct (ey ?= ex); simpl; try reflexivity.
    f_equal. symmetry. exact (Pos.compare_cont_antisym mx my Eq).
Qed.

Lemma SFleb_not_ltb x y : SFleb x y = true -> SFltb y x = false.
Proof.
  unfold SFleb, SFltb. rewrite (SFcompare_swap x y).
  destruct (SFcompare x y) as [[| |]|]; simpl; intros H;
    try discriminate H; reflexivity.
Qed.

Lemma key_product_nonneg a base_key :
  0 < base_key ->
  float_nonneg (entropy a) = true -> float_nonneg (contrast a) = true ->
  is_finite (key_product a base_key) = true ->
  float_nonneg (key_product a base_key) = true.
Proof.
  intros Hk He Hc. unfold key_product.
  destruct (fmul (fmul (Z2F base_key) (entropy a)) (contrast a))
    as [s|s| |s m e] eqn:P; simpl; intros F; try discriminate F.
  - reflexivity.
  - destruct (fmul_finite_sign _ _ _ _ _ P)
      as (s1 & m1 & e1 & sc & mc & ec & X & C & ->).
    destruct (fmul_finite_sign _ _ _ _ _ X)
      as (sb & mb & eb & se & me & ee & B & E & ->).
    rewrite C in Hc. apply float_nonneg_finite in Hc.
    rewrite E in He. apply float_nonneg_finite in He.
    apply (Z2F_sign _ _ _ _ Hk) in B. subst. reflexivity.
Qed.

(** ** The analysis of an image *)

(** C5, as the claim states it, fails: the analysis of a 1x1 image, which
    is neither empty nor of zero width or height, fails. *)
Lemma analyze_image_counterexample :
  image_array buf_1x1 /\ nonempty buf_1x1 /\
  ImageAnalyzer.analyze_image zero_stat zero_stat zero_stat zero_stat buf_1x1
  = None.
Proof.
  split; [repeat split; repeat constructor; unfold is_u8; lia|].
  split; [simpl; lia|reflexivity].
Qed.

(** C5, amended: the analysis of an image fails (returns None) exactly
    when the image has fewer than two rows or fewer than two columns,
    because the gradient needs two samples along each axis; so it fails on
    a 1x1 image and on an empty one, and on every other image it returns
    the statistics with the complexity class of the entropy. *)
Theorem analyze_image_result (np_entropy np_std np_mean np_edge_density :
    ndarray -> float) a :
  image_array a ->
  let h := fst (ImageAnalyzer.gray_shape a) in
  let w := snd (ImageAnalyzer.gray_shape a) in
  let r := ImageAnalyzer.analyze_image np_entropy np_std np_mean
             np_edge_density a in
  (r = None <-> (h < 2)%nat \/ (w < 2)%nat) /\
  (h = 1%nat -> w = 1%nat -> r = None) /\
  ((2 <= h)%nat -> (2 <= w)%nat ->
   r = Some {| entropy := np_entropy a;
               contrast := np_std a;
               brightness := np_mean a;
               edge_density := np_edge_density a;
               complexity := ImageAnalyzer.complexity_of (np_entropy a) |}).
Proof.
  intros _. cbv zeta.
  unfold ImageAnalyzer.analyze_image, ImageAnalyzer.analyze_body,
    ImageAnalyzer.np_gradient.
  destruct (ImageAnalyzer.gray_shape a) as [h w]. simpl fst. simpl snd.
  destruct (Nat.leb_spec 2 h) as [Hh|Hh], (Nat.leb_spec 2 w) as [Hw|Hw]; simpl.
  - split; [split; [discriminate|lia]|]. split; [lia|reflexivity].
  - split; [split; [lia|reflexivity]|]. split; [reflexivity|lia].
  - split; [split; [lia|reflexivity]|]. split; [reflexivity|lia].
  - split; [split; [lia|reflexivity]|]. split; [reflexivity|lia].
Qed.

Lemma analyze_image_result_witness :
  image_array buf_2x2 /\
  ImageAnalyzer.analyze_image zero_stat zero_stat zero_stat zero_stat buf_2x2
  = Some (analysis_of (S754_zero false) (S754_zero false)).
Proof.
  assert (Ha : image_array buf_2x2)
    by (repeat split; repeat constructor; unfold is_u8; lia).
  split; [exact Ha|].
  apply (analyze_image_result zero_stat zero_stat zero_stat zero_stat
           buf_2x2 Ha); simpl; lia.
Defined.

(** ** The derived key *)

(** C6, as the claim states it, fails: with entropy and contrast 2^700,
    both non-negative, the product overflows to infinity and the
    conversion to an integer raises. *)
Lemma generate_smart_key_counterexample :
  float_nonneg huge = true /\ 1 <= 10 <= 255 /\
  ImageAnalyzer.generate_smart_key (analysis_of huge huge) 10
  = Raise OverflowError.
Proof. split; [|split; [lia|]]; vm_compute; reflexivity. Qed.

(** C6, amended: for non-negative entropy and contrast and a base key in
    [1,255] such that the float product base_key * entropy * contrast is
    finite, the key is max(1, floor(product) mod 256), which lies in
    [1,255]; base key 10, entropy 2.0 and contrast 50.0 give 232. *)
Theorem generate_smart_key_value a base_key :
  1 <= base_key <= 255 ->
  float_nonneg (entropy a) = true -> float_nonneg (contrast a) = true ->
  is_finite (key_product a base_key) = true ->
  ImageAnalyzer.generate_smart_key a base_key
  = Ok (Z.max 1 (float_floor (key_product a base_key) mod 256)) /\
  1 <= Z.max 1 (float_floor (key_product a base_key) mod 256) <= 255 /\
  ImageAnalyzer.generate_smart_key (analysis_of (Z2F 2) (Z2F 50)) 10 = Ok 232.
Proof.
  intros Hk He Hc F. split; [|split].
  - pose proof (key_product_nonneg a base_key ltac:(lia) He Hc F) as N.
    unfold ImageAnalyzer.generate_smart_key.
    assert (B : float_of_int base_key = Ok (Z2F base_key)).
    { apply fmul_is_finite in F as [F _]. apply fmul_is_finite in F as [F _].
      unfold float_of_int. destruct (Z2F base_key); try discriminate F;
        reflexivity. }
    rewrite B. simpl rbind. fold (key_product a base_key).
    rewrite (py_int_nonneg _ F N). reflexivity.
  - pose proof (Z.mod_pos_bound (float_floor (key_product a base_key)) 256).
    lia.
  - vm_compute. reflexivity.
Qed.

Lemma generate_smart_key_value_witness :
  1 <= 10 <= 255 /\
  float_nonneg (Z2F 2) = true /\ float_nonneg (Z2F 50) = true /\
  is_finite (key_product (analysis_of (Z2F 2) (Z2F 50)) 10) = true /\
  ImageAnalyzer.generate_smart_key (analysis_of (Z2F 2) (Z2F 50)) 10 = Ok 232.
Proof.
  assert (Hk : 1 <= 10 <= 255) by lia.
  assert (He : float_nonneg (entropy (analysis_of (Z2F 2) (Z2F 50))) = true)
    by reflexivity.
  assert (Hc : float_nonneg (contrast (analysis_of (Z2F 2) (Z2F 50))) = true)
    by reflexivity.
  assert (F : is_finite (key_product (analysis_of (Z2F 2) (Z2F 50)) 10) = true)
    by reflexivity.
  split; [exact Hk|]. split; [exact He|]. split; [exact Hc|]. split; [exact F|].
  exact (proj1 (generate_smart_key_value (analysis_of (Z2F 2) (Z2F 50)) 10
                  Hk He Hc F)).
Defined.

(** ** The recommendation *)

Lemma SFleb_not_ltb_above m4 m6 x0 e :
  (m4 < m6)%positive ->
  SFleb e (S754_finite false m4 x0) = true ->
  SFltb (S754_finite false m6 x0) e = false.
Proof.
  intros Hm. unfold SFleb, SFltb.
  destruct e as [s|s| |s m x]; simpl; try reflexivity.
  - destruct s; [reflexivity|discriminate].
  - destruct s; [reflexivity|].
    rewrite (Z.compare_antisym x x0).
    destruct (x ?= x0); simpl; try reflexivity; try discriminate.
    fold (Pos.compare m m4). fold (Pos.compare m6 m).
    destruct (Pos.compare_spec m m4) as [Heq|Hlt|Hgt];
      try discriminate; intros _;
      destruct (Pos.compare_spec m6 m) as [Heq'|Hlt'|Hgt'];
      try reflexivity; lia.
Qed.

Lemma le4_not_gt6 e : float_le_int e 4 = true -> float_gt_int e 6 = false.
Proof.
  unfold float_le_int, float_gt_int.
  assert (E4 : Z2F 4 = S754_finite false 4503599627370496 (-50))
    by (vm_compute; reflexivity).
  assert (E6 : Z2F 6 = S754_finite false 6755399441055744 (-50))
    by (vm_compute; reflexivity).
  rewrite E4, E6. apply SFleb_not_ltb_above. reflexivity.
Qed.

(** C7: the recommendation is a function of the analysis that tries, in
    this order: complexity high gives aes; else contrast above 50 gives
    xor; else swap.  With the complexity classes (entropy above 6: high;
    above 4 and at most 6: medium; at most 4: low), entropy 7 gives aes
    whatever the contrast, entropy 5 with contrast 60 gives xor, and
    entropy 3 with contrast 10 gives swap. *)
Theorem recommend_method_table :
  (forall a, complexity a = "high"%string ->
             ImageAnalyzer.recommend_method a = "aes"%string) /\
  (forall a, complexity a <> "high"%string ->
             float_gt_int (contrast a) 50 = true ->
             ImageAnalyzer.recommend_method a = "xor"%string) /\
  (forall a, complexity a <> "high"%string ->
             float_gt_int (contrast a) 50 = false ->
             ImageAnalyzer.recommend_method a = "swap"%string) /\
  (forall e, float_gt_int e 6 = true ->
             ImageAnalyzer.complexity_of e = "high"%string) /\
  (forall e, float_gt_int e 4 = true -> float_le_int e 6 = true ->
             ImageAnalyzer.complexity_of e = "medium"%string) /\
  (forall e, float_le_int e 4 = true ->
             ImageAnalyzer.complexity_of e = "low"%string) /\
  (forall c b d,
     ImageAnalyzer.recommend_method
       {| entropy := Z2F 7; contrast := c; brightness := b; edge_density := d;
          complexity := ImageAnalyzer.complexity_of (Z2F 7) |}
     = "aes"%string) /\
  (forall b d,
     ImageAnalyzer.recommend_method
       {| entropy := Z2F 5; contrast := Z2F 60; brightness := b;
          edge_density := d;
          complexity := ImageAnalyzer.complexity_of (Z2F 5) |}
     = "xor"%string) /\
  (forall b d,
     ImageAnalyzer.recommend_method
       {| entropy := Z2F 3; contrast := Z2F 10; brightness := b;
          edge_density := d;
          complexity := ImageAnalyzer.complexity_of (Z2F 3) |}
     = "swap"%string).
Proof.
  unfold ImageAnalyzer.recommend_method, ImageAnalyzer.complexity_of.
  repeat apply conj.
  - intros a ->. reflexivity.
  - intros a N G. apply String.eqb_neq in N. rewrite N, G. reflexivity.
  - intros a N G. apply String.eqb_neq in N. rewrite N, G. reflexivity.
  - intros e ->. reflexivity.
  - intros e G L. unfold float_gt_int, float_le_int in *.
    rewrite (SFleb_not_ltb _ _ L), G. reflexivity.
  - intros e L. rewrite (le4_not_gt6 e L).
    unfold float_gt_int, float_le_int in *.
    rewrite (SFleb_not_ltb _ _ L). reflexivity.
  - intros c b d. reflexivity.
  - intros b d. reflexivity.
  - intros b d. reflexivity.
Qed.

(** * Further properties of the transforms *)

Lemma round_trip_back_pixels g a key method :
  pixel_buffer a -> valid_key key ->
  round_trip_back g a key method
  = Ok (encrypt_pixels g (decrypt_pixels a key method) key method).
Proof.
  intros Ha Hk. unfold round_trip_back.
  rewrite (decrypt_image_from_array_pixels a key method Ha Hk). simpl.
  apply encrypt_image_from_array_pixels; [|exact Hk].
  apply pixel_buffer_decrypt_pixels; assumption.
Qed.

Lemma np_roll_inverse_back a key :
  wf a -> np_roll (np_roll a (- key)) key = a.
Proof.
  intros H. rewrite <- (Z.opp_involutive key) at 2.
  apply np_roll_inverse. exact H.
Qed.

Lemma round_trip_back_swap g a key :
  all_samples is_u8 a -> valid_key key ->
  encrypt_pixels g (decrypt_pixels a key "swap") key "swap" = a.
Proof.
  intros H Hk.
  rewrite encrypt_pixels_swap by (apply u8_decrypt_pixels; assumption).
  rewrite (has_rgb_shape _ a (shape_decrypt_pixels a key "swap")).
  rewrite decrypt_pixels_swap by exact H.
  destruct (has_rgb a); [|reflexivity].
  rewrite map_pixels_map_pixels.
  apply (map_pixels_id_on is_u8); [exact H|].
  intros p Hp. apply swap_pixel_inverse; [exact Hp|].
  intros s Hs. apply sub_add_sample; [exact Hs|]. unfold valid_key in Hk. lia.
Qed.

Lemma round_trip_back_xor g a key :
  all_samples is_u8 a -> valid_key key ->
  encrypt_pixels g (decrypt_pixels a key "xor") key "xor" = a.
Proof.
  intros H Hk.
  pose proof (u8_decrypt_pixels a key "xor" H Hk) as HD.
  unfold encrypt_pixels. rewrite (astype_int16_u8 _ HD). method_eqb.
  unfold decrypt_pixels. rewrite (astype_int16_u8 a H). method_eqb.
  unfold np_xor. rewrite amap_amap.
  apply (amap_id_on is_u8); [exact H|].
  intros s Hs. apply xor_xor_sample; assumption.
Qed.

Lemma round_trip_back_aes g a key :
  wf a -> all_samples is_u8 a -> valid_key key ->
  encrypt_pixels g (decrypt_pixels a key "aes") key "aes" = a.
Proof.
  intros Hwf H Hk.
  pose proof (u8_decrypt_pixels a key "aes" H Hk) as HD.
  unfold encrypt_pixels. rewrite (astype_int16_u8 _ HD). method_eqb.
  unfold decrypt_pixels. rewrite (astype_int16_u8 a H). method_eqb.
  rewrite np_mod_np_add, np_mod_np_sub, np_roll_amap, amap_amap.
  rewrite (np_roll_inverse_back a key Hwf).
  apply (amap_id_on is_u8); [exact H|].
  intros s Hs. apply sub_add_sample; [exact Hs|]. unfold valid_key in Hk. lia.
Qed.

(** X1: decryption followed by encryption with the same key also gives
    the buffer back, for xor, swap and aes: on pixel buffers the two
    directions are inverse bijections. *)
Theorem round_trip_back_exact g a key method :
  pixel_buffer a -> valid_key key ->
  In method ["xor"; "swap"; "aes"]%string ->
  round_trip_back g a key method = Ok a.
Proof.
  intros Ha Hk Hm. pose proof Ha as (Hwf & Hu8 & _).
  rewrite (round_trip_back_pixels g a key method Ha Hk). f_equal.
  destruct Hm as [<-|[<-|[<-|[]]]].
  - apply round_trip_back_xor; assumption.
  - apply round_trip_back_swap; assumption.
  - apply round_trip_back_aes; assumption.
Qed.

Lemma round_trip_back_exact_witness :
  pixel_buffer buf_rgb /\ valid_key 201 /\
  In "swap"%string ["xor"; "swap"; "aes"]%string /\
  round_trip_back rng_ones buf_rgb 201 "swap" = Ok buf_rgb.
Proof.
  assert (Hk : valid_key 201) by (unfold valid_key; lia).
  assert (Hm : In "swap"%string ["xor"; "swap"; "aes"]%string)
    by (simpl; tauto).
  split; [apply pixel_buffer_buf_rgb|]. split; [exact Hk|]. split; [exact Hm|].
  exact (round_trip_back_exact rng_ones buf_rgb 201 "swap"
           pixel_buffer_buf_rgb Hk Hm).
Defined.

(** ** xor *)

Lemma encrypt_pixels_xor g a key :
  all_samples is_u8 a -> valid_key key ->
  encrypt_pixels g a key "xor" = amap (fun s => Z.lxor s key) a.
Proof.
  intros H Hk. unfold encrypt_pixels. rewrite (astype_int16_u8 a H). method_eqb.
  apply (amap_ext_on is_u8); [exact H|].
  intros s Hs. apply (xor_sample key s Hs Hk).
Qed.

(** X2: two xor encryptions in a row, with keys k1 and k2, xor every
    sample with k1 xor k2; with twice the same key the buffer comes back. *)
Theorem xor_encryptions_compose g g' a k1 k2 :
  pixel_buffer a -> valid_key k1 -> valid_key k2 ->
  rbind (encrypt_image_from_array g a k1 "xor")
        (fun e => encrypt_image_from_array g' e k2 "xor")
  = Ok (amap (fun s => Z.lxor s (Z.lxor k1 k2)) a) /\
  (k1 = k2 ->
   rbind (encrypt_image_from_array g a k1 "xor")
         (fun e => encrypt_image_from_array g' e k2 "xor") = Ok a).
Proof.
  intros Ha H1 H2. pose proof Ha as (_ & Hu8 & _).
  assert (E : rbind (encrypt_image_from_array g a k1 "xor")
                (fun e => encrypt_image_from_array g' e k2 "xor")
              = Ok (amap (fun s => Z.lxor s (Z.lxor k1 k2)) a)).
  { rewrite (encrypt_image_from_array_pixels g a k1 _ Ha H1). simpl.
    rewrite (encrypt_image_from_array_pixels g' _ k2 "xor"
               (pixel_buffer_encrypt_pixels g a k1 "xor" Ha H1) H2).
    f_equal.
    rewrite (encrypt_pixels_xor g' _ k2
               (u8_encrypt_pixels g a k1 "xor" Hu8 H1) H2).
    rewrite (encrypt_pixels_xor g a k1 Hu8 H1), amap_amap.
    apply amap_ext_on with (P := fun _ => True).
    - apply (all_samples_weaken is_u8); auto.
    - intros s _. apply Z.lxor_assoc. }
  split; [exact E|]. intros ->. rewrite E. f_equal.
  apply (amap_id_on is_u8); [exact Hu8|].
  intros s _. rewrite Z.lxor_nilpotent. apply Z.lxor_0_r.
Qed.

Lemma xor_encryptions_compose_witness :
  pixel_buffer buf_gray /\ valid_key 5 /\ valid_key 12 /\
  rbind (encrypt_image_from_array rng_ones buf_gray 5 "xor")
        (fun e => encrypt_image_from_array rng_ones e 12 "xor")
  = Ok (Arr2 1 2 [[14; 193]]).
Proof.
  assert (H1 : valid_key 5) by (unfold valid_key; lia).
  assert (H2 : valid_key 12) by (unfold valid_key; lia).
  split; [apply pixel_buffer_buf_gray|]. split; [exact H1|]. split; [exact H2|].
  exact (proj1 (xor_encryptions_compose rng_ones rng_ones buf_gray 5 12
                  pixel_buffer_buf_gray H1 H2)).
Defined.

(** ** Facts checked on every byte *)

Lemma bytes_all s : is_u8 s -> In s bytes.
Proof.
  unfold is_u8, bytes. intros H. apply in_map_iff.
  exists (Z.to_nat s). split; [lia|]. apply in_seq. lia.
Qed.

Lemma byte_forallb (P : Z -> bool) :
  forallb P bytes = true -> forall s, is_u8 s -> P s = true.
Proof.
  intros H s Hs. rewrite forallb_forall in H. apply H, bytes_all, Hs.
Qed.

Lemma clear_lsb_arith s : is_u8 s -> clear_lsb s = s - s mod 2.
Proof.
  intros Hs. apply Z.eqb_eq.
  apply (byte_forallb (fun s => clear_lsb s =? s - s mod 2)); [|exact Hs].
  vm_compute. reflexivity.
Qed.

Lemma lor_land_254_bit s b :
  is_u8 s -> is_bit b -> Z.lor (Z.land s 254) b = set_lsb s b.
Proof.
  intros Hs [-> | ->]; apply Z.eqb_eq.
  - apply (byte_forallb (fun s => Z.lor (Z.land s 254) 0 =? set_lsb s 0));
      [|exact Hs].
    vm_compute. reflexivity.
  - apply (byte_forallb (fun s => Z.lor (Z.land s 254) 1 =? set_lsb s 1));
      [|exact Hs].
    vm_compute. reflexivity.
Qed.

Lemma land_254_set_lsb s b :
  is_u8 s -> is_bit b -> Z.land (set_lsb s b) 254 = clear_lsb s.
Proof.
  intros Hs [-> | ->]; apply Z.eqb_eq.
  - apply (byte_forallb (fun s => Z.land (set_lsb s 0) 254 =? clear_lsb s));
      [|exact Hs].
    vm_compute. reflexivity.
  - apply (byte_forallb (fun s => Z.land (set_lsb s 1) 254 =? clear_lsb s));
      [|exact Hs].
    vm_compute. reflexivity.
Qed.

Lemma set_lsb_facts s b :
  is_u8 s -> is_bit b ->
  is_u8 (set_lsb s b) /\ set_lsb s b / 2 = s / 2 /\ set_lsb s b mod 2 = b /\
  - 1 <= set_lsb s b - s <= 1.
Proof.
  intros Hs Hb. unfold set_lsb. rewrite (clear_lsb_arith s Hs).
  unfold is_u8, is_bit in *.
  pose proof (Z.mod_pos_bound s 2 ltac:(lia)) as Hm.
  pose proof (Z.div_mod s 2 ltac:(lia)) as Hd.
  replace (s - s mod 2 + b) with (b + (s / 2) * 2) by lia.
  rewrite Z.div_add, Z.mod_add by lia.
  rewrite (Z.div_small b 2), (Z.mod_small b 2) by lia.
  repeat split; lia.
Qed.

(** ** Arrays combined sample by sample *)

Lemma zip_with_map_l {A A' B C} (f : A' -> B -> C) (g : A -> A') l k :
  zip_with f (map g l) k = zip_with (fun x y => f (g x) y) l k.
Proof.
  revert k. induction l as [|x l IH]; intros [|y k]; simpl; try reflexivity.
  rewrite IH. reflexivity.
Qed.

Lemma map_zip_with {A B C D} (f : C -> D) (g : A -> B -> C) l k :
  map f (zip_with g l k) = zip_with (fun x y => f (g x y)) l k.
Proof.
  revert k. induction l as [|x l IH]; intros [|y k]; simpl; try reflexivity.
  rewrite IH. reflexivity.
Qed.

Lemma zip_with_ext_on {A B C} (P : A -> Prop) (Q : B -> Prop)
    (f g : A -> B -> C) l k :
  Forall P l -> Forall Q k -> (forall x y, P x -> Q y -> f x y = g x y) ->
  zip_with f l k = zip_with g l k.
Proof.
  intros Hl. revert k.
  induction Hl as [|x l Hx _ IH]; intros k Hk E; simpl; [reflexivity|].
  destruct Hk as [|y k Hy Hk]; [reflexivity|].
  rewrite (E x y Hx Hy), (IH k Hk E). reflexivity.
Qed.

Lemma zip_with_fst_on {A B C} (P : A -> Prop) (Q : B -> Prop)
    (f : A -> B -> C) (h : A -> C) l k :
  length l = length k ->
  Forall P l -> Forall Q k -> (forall x y, P x -> Q y -> f x y = h x) ->
  zip_with f l k = map h l.
Proof.
  intros L Hl. revert k L.
  induction Hl as [|x l Hx _ IH]; intros k L Hk E; simpl; [reflexivity|].
  destruct Hk as [|y k Hy Hk]; [discriminate L|].
  simpl in L. rewrite (E x y Hx Hy), (IH k) by (auto; lia). reflexivity.
Qed.

Lemma azip_amap_l f g a b :
  shape a = shape b ->
  azip f (amap g a) b = azip (fun x y => f (g x) y) a b.
Proof.
  destruct a as [h w ra|h w c ra], b as [h' w' rb|h' w' c' rb]; simpl;
    try discriminate; intros _; f_equal.
  - rewrite zip_with_map_l.
    apply (zip_with_ext_on (fun _ => True) (fun _ => True));
      [apply Forall_true; auto..|].
    intros x y _ _. apply zip_with_map_l.
  - rewrite zip_with_map_l.
    apply (zip_with_ext_on (fun _ => True) (fun _ => True));
      [apply Forall_true; auto..|].
    intros x y _ _. rewrite zip_with_map_l.
    apply (zip_with_ext_on (fun _ => True) (fun _ => True));
      [apply Forall_true; auto..|].
    intros p q _ _. apply zip_with_map_l.
Qed.

Lemma amap_azip f g a b :
  shape a = shape b ->
  amap f (azip g a b) = azip (fun x y => f (g x y)) a b.
Proof.
  destruct a as [h w ra|h w c ra], b as [h' w' rb|h' w' c' rb]; simpl;
    try discriminate; intros _; f_equal.
  - rewrite map_zip_with.
    apply (zip_with_ext_on (fun _ => True) (fun _ => True));
      [apply Forall_true; auto..|].
    intros x y _ _. apply map_zip_with.
  - rewrite map_zip_with.
    apply (zip_with_ext_on (fun _ => True) (fun _ => True));
      [apply Forall_true; auto..|].
    intros x y _ _. rewrite map_zip_with.
    apply (zip_with_ext_on (fun _ => True) (fun _ => True));
      [apply Forall_true; auto..|].
    intros p q _ _. apply map_zip_with.
Qed.

Lemma azip_ext_on (P Q : Z -> Prop) f g a b :
  all_samples P a -> all_samples Q b ->
  (forall x y, P x -> Q y -> f x y = g x y) ->
  azip f a b = azip g a b.
Proof.
  destruct a as [h w ra|h w c ra], b as [h' w' rb|h' w' c' rb]; simpl;
    try reflexivity; intros Ha Hb E; f_equal.
  - apply (zip_with_ext_on (Forall P) (Forall Q)); [assumption..|].
    intros x y Hx Hy. apply (zip_with_ext_on P Q); assumption.
  - apply (zip_with_ext_on (Forall (Forall P)) (Forall (Forall Q)));
      [assumption..|].
    intros x y Hx Hy.
    apply (zip_with_ext_on (Forall P) (Forall Q)); [assumption..|].
    intros p q Hp Hq. apply (zip_with_ext_on P Q); assumption.
Qed.

Lemma Forall_and {A} (P Q : A -> Prop) l :
  Forall P l -> Forall Q l -> Forall (fun x => P x /\ Q x) l.
Proof.
  intros HP. induction HP; intros HQ; inversion_clear HQ; constructor; auto.
Qed.

Lemma azip_fst_on (P Q : Z -> Prop) f h a b :
  wf a -> wf b -> shape a = shape b ->
  all_samples P a -> all_samples Q b ->
  (forall x y, P x -> Q y -> f x y = h x) ->
  azip f a b = amap h a.
Proof.
  destruct a as [n w ra|n w c ra], b as [n' w' rb|n' w' c' rb]; simpl;
    try discriminate.
  - intros [La Wa] [Lb Wb] S Ha Hb E. injection S as <- <-. f_equal.
    apply (zip_with_fst_on
             (fun r => length r = w /\ Forall P r)
             (fun r => length r = w /\ Forall Q r)); [lia|..].
    + apply Forall_and; assumption.
    + apply Forall_and; assumption.
    + intros x y [Lx Hx] [Ly Hy].
      apply (zip_with_fst_on P Q); [lia|assumption..].
  - intros [La Wa] [Lb Wb] S Ha Hb E. injection S as <- <- <-. f_equal.
    apply (zip_with_fst_on
             (fun r => (length r = w /\ Forall (fun p => length p = c) r)
                       /\ Forall (Forall P) r)
             (fun r => (length r = w /\ Forall (fun p => length p = c) r)
                       /\ Forall (Forall Q) r)); [lia|..].
    + apply Forall_and; assumption.
    + apply Forall_and; assumption.
    + intros x y [[Lx Wx] Hx] [[Ly Wy] Hy].
      apply (zip_with_fst_on
               (fun p => length p = c /\ Forall P p)
               (fun p => length p = c /\ Forall Q p)); [lia|..].
      * apply Forall_and; assumption.
      * apply Forall_and; assumption.
      * intros p q [Lp Hp] [Lq Hq].
        apply (zip_with_fst_on P Q); [lia|assumption..].
Qed.

(** ** Steganography *)

Lemma encrypt_pixels_steganography g a key :
  all_samples is_u8 a ->
  encrypt_pixels g a key "steganography"
  = azip set_lsb a (np_random_bits g a).
Proof.
  intros H. unfold encrypt_pixels. rewrite (astype_int16_u8 a H). method_eqb.
  unfold np_or, np_and.
  rewrite azip_amap_l by (symmetry; apply shape_np_random_bits).
  apply (azip_ext_on is_u8 is_bit); [exact H|apply bits_np_random_bits|].
  apply lor_land_254_bit.
Qed.

Lemma decrypt_pixels_steganography a key :
  all_samples is_u8 a ->
  decrypt_pixels a key "steganography" = amap clear_lsb a.
Proof.
  intros H. unfold decrypt_pixels. rewrite (astype_int16_u8 a H). method_eqb.
  apply (amap_ext_on is_u8); [exact H|]. apply land_254_clear_lsb.
Qed.

Lemma clear_lsb_fixed s : is_u8 s -> (clear_lsb s = s <-> s mod 2 = 0).
Proof. intros Hs. rewrite (clear_lsb_arith s Hs). lia. Qed.

Lemma clear_lsb_u8 s : is_u8 s -> is_u8 (clear_lsb s).
Proof.
  intros Hs. rewrite <- (land_254_clear_lsb s Hs). apply land_254_u8, Hs.
Qed.

Lemma clear_lsb_idempotent s : is_u8 s -> clear_lsb (clear_lsb s) = clear_lsb s.
Proof.
  intros Hs. apply Z.eqb_eq.
  apply (byte_forallb (fun s => clear_lsb (clear_lsb s) =? clear_lsb s));
    [|exact Hs].
  vm_compute. reflexivity.
Qed.

(** X3: for steganography, decrypting an encryption gives the buffer with
    every least significant bit cleared, whatever bits were drawn; the
    round trip is exact exactly when every sample is even, and decrypting
    twice is the same as decrypting once. *)
Theorem steganography_round_trip g a key :
  pixel_buffer a -> valid_key key ->
  round_trip g a key "steganography" = Ok (amap clear_lsb a) /\
  (round_trip g a key "steganography" = Ok a <->
   all_samples (fun s => s mod 2 = 0) a) /\
  rbind (decrypt_image_from_array a key "steganography")
        (fun d => decrypt_image_from_array d key "steganography")
  = decrypt_image_from_array a key "steganography".
Proof.
  intros Ha Hk. pose proof Ha as (Hwf & Hu8 & _).
  assert (E : round_trip g a key "steganography" = Ok (amap clear_lsb a)).
  { rewrite (round_trip_pixels g a key _ Ha Hk). f_equal.
    rewrite decrypt_pixels_steganography
      by (apply u8_encrypt_pixels; assumption).
    rewrite (encrypt_pixels_steganography g a key Hu8).
    rewrite amap_azip by (symmetry; apply shape_np_random_bits).
    apply (azip_fst_on is_u8 is_bit);
      auto using wf_np_random_bits, bits_np_random_bits.
    - symmetry. apply shape_np_random_bits.
    - intros x y Hx Hy.
      rewrite <- (land_254_clear_lsb (set_lsb x y))
        by apply (set_lsb_facts x y Hx Hy).
      apply land_254_set_lsb; assumption. }
  split; [exact E|]. split.
  - rewrite E.
    rewrite <- (all_samples_iff_on is_u8 (fun s => clear_lsb s = s) _ a Hu8
                  clear_lsb_fixed).
    rewrite <- amap_fixed_iff.
    split; [intros Q; injection Q; auto|intros ->; reflexivity].
  - rewrite (decrypt_image_from_array_pixels a key _ Ha Hk). simpl.
    rewrite (decrypt_image_from_array_pixels _ key "steganography"
               (pixel_buffer_decrypt_pixels a key _ Ha Hk) Hk).
    f_equal.
    rewrite decrypt_pixels_steganography
      by (apply u8_decrypt_pixels; assumption).
    rewrite (decrypt_pixels_steganography a key Hu8), amap_amap.
    apply (amap_ext_on is_u8); [exact Hu8|]. apply clear_lsb_idempotent.
Qed.

Lemma steganography_round_trip_witness :
  pixel_buffer buf_rgb /\ valid_key 17 /\
  round_trip rng_ones buf_rgb 17 "steganography"
  = Ok (Arr3 2 1 3 [[[10; 200; 30]]; [[254; 0; 128]]]).
Proof.
  assert (Hk : valid_key 17) by (unfold valid_key; lia).
  split; [apply pixel_buffer_buf_rgb|]. split; [exact Hk|].
  exact (proj1 (steganography_round_trip rng_ones buf_rgb 17
                  pixel_buffer_buf_rgb Hk)).
Defined.

(** X4: steganography encryption replaces the least significant bit of
    each sample by the bit drawn for its position and keeps the seven
    other bits, so no sample moves by more than 1. *)
Theorem steganography_encrypt_sets_lsb g a key :
  pixel_buffer a -> valid_key key ->
  encrypt_image_from_array g a key "steganography"
  = Ok (azip set_lsb a (np_random_bits g a)) /\
  forall s b, is_u8 s -> is_bit b ->
    is_u8 (set_lsb s b) /\ set_lsb s b / 2 = s / 2 /\
    set_lsb s b mod 2 = b /\ - 1 <= set_lsb s b - s <= 1.
Proof.
  intros Ha Hk. pose proof Ha as (_ & Hu8 & _).
  split; [|apply set_lsb_facts].
  rewrite (encrypt_image_from_array_pixels g a key _ Ha Hk). f_equal.
  apply encrypt_pixels_steganography, Hu8.
Qed.

Lemma steganography_encrypt_sets_lsb_witness :
  pixel_buffer buf_gray /\ valid_key 3 /\
  encrypt_image_from_array rng_ones buf_gray 3 "steganography"
  = Ok (Arr2 1 2 [[7; 201]]).
Proof.
  assert (Hk : valid_key 3) by (unfold valid_key; lia).
  split; [apply pixel_buffer_buf_gray|]. split; [exact Hk|].
  exact (proj1 (steganography_encrypt_sets_lsb rng_ones buf_gray 3
                  pixel_buffer_buf_gray Hk)).
Defined.

(** ** Shift *)

Lemma shift_forallb (P : Z -> Z -> bool) :
  forallb (fun n => forallb (P n) bytes) shift_amounts = true ->
  forall n s, 0 <= n <= 7 -> is_u8 s -> P n s = true.
Proof.
  intros H n s Hn Hs. rewrite forallb_forall in H.
  apply byte_forallb; [|exact Hs]. apply H.
  unfold shift_amounts. apply in_map_iff.
  exists (Z.to_nat n). split; [lia|]. apply in_seq. lia.
Qed.

Lemma shiftl_fixed n s :
  0 <= n <= 7 -> is_u8 s ->
  (wrap16 (Z.shiftl s n) mod 256 = s <-> n = 0 \/ s = 0).
Proof.
  intros Hn Hs.
  pose proof (shift_forallb
    (fun n s => Bool.eqb (wrap16 (Z.shiftl s n) mod 256 =? s)
                         ((n =? 0) || (s =? 0)))
    ltac:(vm_compute; reflexivity) n s Hn Hs) as E.
  apply Bool.eqb_prop in E.
  rewrite <- Z.eqb_eq, E, orb_true_iff, !Z.eqb_eq. reflexivity.
Qed.

Lemma shiftr_fixed n s :
  0 <= n <= 7 -> is_u8 s ->
  (Z.shiftr s n mod 256 = s <-> n = 0 \/ s = 0).
Proof.
  intros Hn Hs.
  pose proof (shift_forallb
    (fun n s => Bool.eqb (Z.shiftr s n mod 256 =? s) ((n =? 0) || (s =? 0)))
    ltac:(vm_compute; reflexivity) n s Hn Hs) as E.
  apply Bool.eqb_prop in E.
  rewrite <- Z.eqb_eq, E, orb_true_iff, !Z.eqb_eq. reflexivity.
Qed.

Lemma shiftr_shiftl_sample n s :
  0 <= n <= 7 -> is_u8 s ->
  wrap16 (Z.shiftl (Z.shiftr s n mod 256) n) mod 256 = clear_low n s.
Proof.
  intros Hn Hs. apply Z.eqb_eq.
  apply (shift_forallb
    (fun n s => wrap16 (Z.shiftl (Z.shiftr s n mod 256) n) mod 256
                =? clear_low n s)); [|assumption..].
  vm_compute. reflexivity.
Qed.

Lemma all_samples_or_const (C : Prop) (P : Z -> Prop) a :
  C \/ ~ C ->
  (all_samples (fun s => C \/ P s) a <-> C \/ all_samples P a).
Proof.
  intros [HC|HN].
  - split; [auto|]. intros _.
    apply (all_samples_weaken (fun _ => True)); [|auto].
    destruct a; simpl; repeat (apply Forall_true; intros ?); exact I.
  - split.
    + intros H. right. apply (all_samples_weaken _ _ a H).
      intros s [?|?]; tauto.
    + intros [?|H]; [tauto|]. apply (all_samples_weaken _ _ a H). auto.
Qed.

Lemma encrypt_pixels_shift g a key :
  all_samples is_u8 a ->
  encrypt_pixels g a key "shift"
  = amap (fun s => wrap16 (Z.shiftl s (key mod 8)) mod 256) a.
Proof.
  intros H. unfold encrypt_pixels. rewrite (astype_int16_u8 a H). method_eqb.
  apply np_mod_np_left_shift.
Qed.

Lemma decrypt_pixels_shift a key :
  all_samples is_u8 a ->
  decrypt_pixels a key "shift"
  = amap (fun s => Z.shiftr s (key mod 8) mod 256) a.
Proof.
  intros H. unfold decrypt_pixels. rewrite (astype_int16_u8 a H). method_eqb.
  apply np_mod_np_right_shift.
Qed.

(** X5: the shift method returns the buffer unchanged, in encryption as in
    decryption, exactly when key mod 8 = 0 or every sample is 0: the keys
    8, 16, ..., 248 do not alter any image. *)
Theorem shift_returns_input g a key :
  pixel_buffer a -> valid_key key ->
  (encrypt_image_from_array g a key "shift" = Ok a <->
   key mod 8 = 0 \/ all_samples (fun s => s = 0) a) /\
  (decrypt_image_from_array a key "shift" = Ok a <->
   key mod 8 = 0 \/ all_samples (fun s => s = 0) a).
Proof.
  intros Ha Hk. pose proof Ha as (_ & Hu8 & _).
  pose proof (shift_amount key) as Hn.
  assert (D : key mod 8 = 0 \/ key mod 8 <> 0) by lia.
  rewrite <- (all_samples_or_const _ (fun s => s = 0) a D).
  split.
  - rewrite (encrypt_image_from_array_pixels g a key _ Ha Hk).
    rewrite (encrypt_pixels_shift g a key Hu8).
    rewrite <- (all_samples_iff_on is_u8 _ _ a Hu8
                  (fun s Hs => shiftl_fixed (key mod 8) s Hn Hs)).
    rewrite <- amap_fixed_iff.
    split; [intros Q; injection Q; auto|intros ->; reflexivity].
  - rewrite (decrypt_image_from_array_pixels a key _ Ha Hk).
    rewrite (decrypt_pixels_shift a key Hu8).
    rewrite <- (all_samples_iff_on is_u8 _ _ a Hu8
                  (fun s Hs => shiftr_fixed (key mod 8) s Hn Hs)).
    rewrite <- amap_fixed_iff.
    split; [intros Q; injection Q; auto|intros ->; reflexivity].
Qed.

Lemma shift_returns_input_witness :
  pixel_buffer buf_rgb /\ valid_key 248 /\
  encrypt_image_from_array rng_ones buf_rgb 248 "shift" = Ok buf_rgb.
Proof.
  assert (Hk : valid_key 248) by (unfold valid_key; lia).
  split; [apply pixel_buffer_buf_rgb|]. split; [exact Hk|].
  apply (shift_returns_input rng_ones buf_rgb 248 pixel_buffer_buf_rgb Hk).
  left. reflexivity.
Defined.

(** X6: for the shift method, decryption followed by encryption clears
    the key mod 8 low bits of every sample (the right shift drops them). *)
Theorem shift_round_trip_back g a key :
  pixel_buffer a -> valid_key key ->
  round_trip_back g a key "shift" = Ok (amap (clear_low (key mod 8)) a).
Proof.
  intros Ha Hk. pose proof Ha as (_ & Hu8 & _).
  rewrite (round_trip_back_pixels g a key _ Ha Hk). f_equal.
  rewrite encrypt_pixels_shift by (apply u8_decrypt_pixels; assumption).
  rewrite (decrypt_pixels_shift a key Hu8), amap_amap.
  apply (amap_ext_on is_u8); [exact Hu8|].
  intros s Hs. apply shiftr_shiftl_sample; [apply shift_amount|exact Hs].
Qed.

Lemma shift_round_trip_back_witness :
  pixel_buffer buf_gray /\ valid_key 3 /\
  round_trip_back rng_ones buf_gray 3 "shift" = Ok (Arr2 1 2 [[0; 200]]).
Proof.
  assert (Hk : valid_key 3) by (unfold valid_key; lia).
  split; [apply pixel_buffer_buf_gray|]. split; [exact Hk|].
  exact (shift_round_trip_back rng_ones buf_gray 3 pixel_buffer_buf_gray Hk).
Defined.

(** ** Encryption that always changes the image *)

Lemma xor_moves s key : valid_key key -> Z.lxor s key <> s.
Proof.
  unfold valid_key. intros Hk E.
  assert (Z.lxor (Z.lxor s key) s = 0) by (rewrite E; apply Z.lxor_nilpotent).
  rewrite (Z.lxor_comm s key), Z.lxor_assoc, Z.lxor_nilpotent, Z.lxor_0_r in H.
  lia.
Qed.

Lemma add_key_moves s key :
  is_u8 s -> valid_key key -> wrap16 (s + key) mod 256 <> s.
Proof.
  unfold is_u8, valid_key. intros Hs Hk.
  rewrite wrap16_small by lia. intros E.
  destruct (Z_lt_le_dec (s + key) 256) as [L|G].
  - rewrite Z.mod_small in E by lia. lia.
  - replace (s + key) with (s + key - 256 + 1 * 256) in E by lia.
    rewrite Z.mod_add, Z.mod_small in E by lia. lia.
Qed.

(** A pixel buffer has a first sample, and a first pixel. *)
Lemma first_sample (P : Z -> Prop) a :
  pixel_buffer a -> all_samples P a -> exists s, P s.
Proof.
  intros (Hwf & _ & Hm & Hne).
  destruct a as [h w rows|h w c rows]; simpl in *.
  - destruct Hwf as [Lh Hw], Hne as [Hh Hw0].
    destruct rows as [|r rows]; [simpl in Lh; lia|].
    inversion_clear Hw as [|? ? Lr _]. intros H.
    inversion_clear H as [|? ? Hr _].
    destruct r as [|s r]; [simpl in Lr; lia|].
    inversion_clear Hr as [|? ? Hs _]. eauto.
  - destruct Hwf as [Lh Hw], Hne as [Hh Hw0].
    assert (Hc : (0 < c)%nat) by (destruct c; [discriminate Hm|lia]).
    destruct rows as [|r rows]; [simpl in Lh; lia|].
    inversion_clear Hw as [|? ? [Lr Hp] _].
    intros H. inversion_clear H as [|? ? Hr _].
    destruct r as [|p r]; [simpl in Lr; lia|].
    inversion_clear Hp as [|? ? Lp _]. inversion_clear Hr as [|? ? Hq _].
    destruct p as [|s p]; [simpl in Lp; lia|].
    inversion_clear Hq as [|? ? Hs _]. eauto.
Qed.

Lemma first_pixel_fixed f h w c rows :
  pixel_buffer (Arr3 h w c rows) ->
  map_pixels f (Arr3 h w c rows) = Arr3 h w c rows ->
  exists p, length p = c /\ Forall is_u8 p /\ f p = p.
Proof.
  intros ((Lh & Hw) & Hu8 & _ & (Hh & Hw0)) E. simpl in *.
  injection E as E.
  destruct rows as [|r rows]; [simpl in Lh; lia|].
  inversion_clear Hw as [|? ? [Lr Hp] _]. inversion_clear Hu8 as [|? ? Hr _].
  destruct r as [|p r]; [simpl in Lr; lia|].
  inversion_clear Hp as [|? ? Lp _]. inversion_clear Hr as [|? ? Hq _].
  simpl in E. injection E as E _ _. eauto.
Qed.

(** X7: xor encryption changes every sample, and swap encryption of a
    buffer with three channels or more changes the second channel of
    every pixel; neither ever returns the buffer it was given. *)
Theorem xor_and_swap_change_the_image g a key :
  pixel_buffer a -> valid_key key ->
  encrypt_image_from_array g a key "xor"
  = Ok (amap (fun s => Z.lxor s key) a) /\
  (forall s, Z.lxor s key <> s) /\
  encrypt_image_from_array g a key "xor" <> Ok a /\
  (has_rgb a = true -> encrypt_image_from_array g a key "swap" <> Ok a).
Proof.
  intros Ha Hk. pose proof Ha as (Hwf & Hu8 & _).
  assert (E : encrypt_image_from_array g a key "xor"
              = Ok (amap (fun s => Z.lxor s key) a)).
  { rewrite (encrypt_image_from_array_pixels g a key _ Ha Hk). f_equal.
    apply encrypt_pixels_xor; assumption. }
  split; [exact E|]. split; [intros s; apply xor_moves, Hk|]. split.
  - rewrite E. intros Q. injection Q as Q. apply amap_fixed_iff in Q.
    destruct (first_sample _ a Ha Q) as [s Hs].
    exact (xor_moves s key Hk Hs).
  - intros Hc. rewrite (encrypt_image_from_array_pixels g a key _ Ha Hk).
    rewrite (encrypt_pixels_swap g a key Hu8), Hc.
    intros Q. injection Q as Q.
    destruct a as [h w rows|h w c rows]; [discriminate Hc|].
    unfold has_rgb in Hc. apply Nat.leb_le in Hc.
    destruct (first_pixel_fixed _ h w c rows Ha Q) as (p & Lp & Hp & Fp).
    destruct p as [|c0 [|c1 [|c2 rest]]]; simpl in Lp; try lia.
    unfold swap_pixel in Fp. simpl in Fp. injection Fp as _ F1 _.
    inversion_clear Hp as [|? ? _ Hp']. inversion_clear Hp' as [|? ? H1 _].
    exact (add_key_moves c1 key H1 Hk F1).
Qed.

Lemma xor_and_swap_change_the_image_witness :
  pixel_buffer buf_gray /\ valid_key 1 /\
  encrypt_image_from_array rng_ones buf_gray 1 "xor" = Ok (Arr2 1 2 [[6; 201]]).
Proof.
  assert (Hk : valid_key 1) by (unfold valid_key; lia).
  split; [apply pixel_buffer_buf_gray|]. split; [exact Hk|].
  exact (proj1 (xor_and_swap_change_the_image rng_ones buf_gray 1
                  pixel_buffer_buf_gray Hk)).
Defined.

(** * Further properties of the analyzer *)

Lemma max_1_mod_256 i : 1 <= Z.max 1 (i mod 256) <= 255.
Proof. pose proof (Z.mod_pos_bound i 256). lia. Qed.

Lemma py_int_returns x :
  (exists i, py_int x = Ok i /\ is_finite x = true) \/
  (exists e, py_int x = Raise e /\ is_finite x = false).
Proof. destruct x; simpl; eauto. Qed.

(** X8: the derived key, whenever one is returned, lies in [1,255], for
    every analysis and every base key (negative products included); a key
    is returned exactly when the base key converts to a finite float and
    the float product base_key * entropy * contrast is finite. *)
Theorem generate_smart_key_returns a base_key :
  (forall key, ImageAnalyzer.generate_smart_key a base_key = Ok key ->
               valid_key key) /\
  ((exists key, ImageAnalyzer.generate_smart_key a base_key = Ok key) <->
   is_finite (Z2F base_key) = true /\
   is_finite (key_product a base_key) = true).
Proof.
  unfold ImageAnalyzer.generate_smart_key, key_product. split.
  - intros key.
    destruct (float_of_int base_key) as [b|x]; simpl; [|discriminate].
    destruct (py_int _) as [i|x]; simpl; intros H; [|discriminate H].
    injection H as <-. apply max_1_mod_256.
  - unfold float_of_int, rbind.
    destruct (Z2F base_key) as [s|s| |s m e];
      try (split; [intros [key H]; discriminate H
                  |intros [H _]; discriminate H]);
      match goal with
      | |- context [py_int ?p] =>
          destruct (py_int_returns p) as [[i [-> F]]|[x [-> F]]]; rewrite F
      end;
      split; first [ intros [key H]; discriminate H
                   | intros [H H']; discriminate
                   | eauto ].
Qed.

Lemma fmul_zero_r x s :
  is_finite x = true -> exists s', fmul x (S754_zero s) = S754_zero s'.
Proof. destruct x; simpl; intros H; try discriminate H; eauto. Qed.

Lemma fmul_zero_l x s :
  is_finite x = true -> exists s', fmul (S754_zero s) x = S754_zero s'.
Proof. destruct x; simpl; intros H; try discriminate H; eauto. Qed.

Lemma float_of_int_finite n :
  is_finite (Z2F n) = true -> float_of_int n = Ok (Z2F n).
Proof.
  unfold float_of_int. destruct (Z2F n); simpl; intros H;
    try discriminate H; reflexivity.
Qed.

(** X9: an image without contrast (standard deviation zero) gets the key
    1 whatever the base key, and so does an analysis whose entropy is
    zero, provided the other factors are finite. *)
Theorem generate_smart_key_flat a base_key :
  is_finite (Z2F base_key) = true ->
  (exists s, contrast a = S754_zero s) /\
    is_finite (fmul (Z2F base_key) (entropy a)) = true \/
  (exists s, entropy a = S754_zero s) /\ is_finite (contrast a) = true ->
  ImageAnalyzer.generate_smart_key a base_key = Ok 1.
Proof.
  intros B H. unfold ImageAnalyzer.generate_smart_key.
  rewrite (float_of_int_finite base_key B). simpl rbind.
  destruct H as [[[s C] F]|[[s E] F]].
  - rewrite C. destruct (fmul_zero_r _ s F) as [s' ->]. reflexivity.
  - rewrite E. destruct (fmul_zero_r _ s B) as [s' ->].
    destruct (fmul_zero_l _ s' F) as [s'' ->]. reflexivity.
Qed.

Lemma generate_smart_key_flat_witness :
  is_finite (Z2F 200) = true /\
  ImageAnalyzer.generate_smart_key (analysis_of (Z2F 5) (S754_zero false)) 200
  = Ok 1.
Proof.
  assert (B : is_finite (Z2F 200) = true) by reflexivity.
  split; [exact B|].
  apply (generate_smart_key_flat (analysis_of (Z2F 5) (S754_zero false)) 200 B).
  left. split; [exists false; reflexivity|reflexivity].
Defined.

Lemma recommend_method_cases a :
  In (ImageAnalyzer.recommend_method a) ["xor"; "swap"; "aes"]%string.
Proof.
  unfold ImageAnalyzer.recommend_method.
  destruct (String.eqb _ _); [simpl; tauto|].
  destruct (float_gt_int _ _); simpl; tauto.
Qed.

(** X10: the recommended method is always one of aes, xor and swap, never
    shift or steganography; so with any key the key derivation returns,
    encrypting a pixel buffer with the recommended method and decrypting
    the result gives the buffer back exactly. *)
Theorem recommended_method_round_trips an base_key key g a :
  ImageAnalyzer.generate_smart_key an base_key = Ok key ->
  pixel_buffer a ->
  In (ImageAnalyzer.recommend_method an) ["xor"; "swap"; "aes"]%string /\
  recognized (ImageAnalyzer.recommend_method an) = true /\
  round_trip g a key (ImageAnalyzer.recommend_method an) = Ok a.
Proof.
  intros K Ha. pose proof Ha as (Hwf & Hu8 & _).
  pose proof (recommend_method_cases an) as Hm.
  assert (Hk : valid_key key).
  { unfold ImageAnalyzer.generate_smart_key in K.
    destruct (float_of_int base_key) as [b|x]; [|discriminate K].
    simpl in K. destruct (py_int _) as [i|x]; [|discriminate K].
    simpl in K. injection K as <-. apply max_1_mod_256. }
  split; [exact Hm|]. split.
  - destruct Hm as [<-|[<-|[<-|[]]]]; reflexivity.
  - rewrite (round_trip_pixels g a key _ Ha Hk). f_equal.
    destruct Hm as [<-|[<-|[<-|[]]]].
    + apply round_trip_xor; assumption.
    + apply round_trip_swap; assumption.
    + apply round_trip_aes; assumption.
Qed.

Lemma recommended_method_round_trips_witness :
  ImageAnalyzer.generate_smart_key (analysis_of (Z2F 2) (Z2F 50)) 10 = Ok 232 /\
  pixel_buffer buf_rgb /\
  round_trip rng_ones buf_rgb 232
    (ImageAnalyzer.recommend_method (analysis_of (Z2F 2) (Z2F 50)))
  = Ok buf_rgb.
Proof.
  assert (K : ImageAnalyzer.generate_smart_key
                (analysis_of (Z2F 2) (Z2F 50)) 10 = Ok 232)
    by (vm_compute; reflexivity).
  split; [exact K|]. split; [apply pixel_buffer_buf_rgb|].
  exact (proj2 (proj2 (recommended_method_round_trips
                         (analysis_of (Z2F 2) (Z2F 50)) 10 232
                         rng_ones buf_rgb K pixel_buffer_buf_rgb))).
Defined.

(** X11: on an image the analysis accepts, the recommendation depends on
    the statistics only through two tests: entropy above 6 gives aes;
    otherwise contrast above 50 gives xor and anything else swap.  The
    medium and low classes are treated alike. *)
Theorem recommendation_of_analysis
    (np_entropy np_std np_mean np_edge_density : ndarray -> float) a an :
  ImageAnalyzer.analyze_image np_entropy np_std np_mean np_edge_density a
  = Some an ->
  ImageAnalyzer.recommend_method an
  = (if float_gt_int (np_entropy a) 6 then "aes"
     else if float_gt_int (np_std a) 50 then "xor" else "swap")%string /\
  (float_gt_int (np_entropy a) 6 = false ->
   ImageAnalyzer.recommend_method an
   = ImageAnalyzer.recommend_method
       {| entropy := entropy an; contrast := contrast an;
          brightness := brightness an; edge_density := edge_density an;
          complexity := "low" |}).
Proof.
  unfold ImageAnalyzer.analyze_image, ImageAnalyzer.analyze_body.
  destruct (ImageAnalyzer.np_gradient a) as [[]|x]; simpl; intros H;
    [|discriminate H].
  injection H as <-.
  unfold ImageAnalyzer.recommend_method, ImageAnalyzer.complexity_of. simpl.
  destruct (float_gt_int (np_entropy a) 6); [split; [reflexivity|]|].
  - intros E. discriminate E.
  - destruct (float_gt_int (np_entropy a) 4); split; reflexivity.
Qed.

Lemma recommendation_of_analysis_witness :
  ImageAnalyzer.analyze_image zero_stat zero_stat zero_stat zero_stat buf_2x2
  = Some (analysis_of (S754_zero false) (S754_zero false)) /\
  ImageAnalyzer.recommend_method
    (analysis_of (S754_zero false) (S754_zero false))
  = "swap"%string.
Proof.
  assert (H : ImageAnalyzer.analyze_image zero_stat zero_stat zero_stat
                zero_stat buf_2x2
              = Some (analysis_of (S754_zero false) (S754_zero false)))
    by reflexivity.
  split; [exact H|].
  exact (proj1 (recommendation_of_analysis zero_stat zero_stat zero_stat
                  zero_stat buf_2x2 _ H)).
Defined.

(** * The window *)

(** ** The history widget *)

Lemma add_history_item_firstn timestamp operation image rows :
  (length rows <= 10)%nat ->
  add_history_item timestamp operation image rows
  = firstn 10 (history_row (timestamp, operation, image) :: rows).
Proof.
  intros L. unfold add_history_item, history_row. cbv zeta.
  set (item := ((timestamp ++ " - " ++ operation)%string, image)).
  destruct (Nat.ltb_spec 10 (length (item :: rows))) as [H|H].
  - rewrite removelast_firstn_len. simpl length in *.
    replace (Nat.pred (S (length rows))) with 10%nat by lia. reflexivity.
  - symmetry. apply firstn_all2. exact H.
Qed.

Lemma firstn_app_firstn {A} n (l k : list A) :
  firstn n (l ++ firstn n k) = firstn n (l ++ k).
Proof.
  rewrite !firstn_app, firstn_firstn.
  f_equal. f_equal. lia.
Qed.

(** X12: the history widget shows the ten most recent operations, newest
    first: after any number of additions to a list of at most ten rows,
    the rows are the first ten of the new items, latest first, followed by
    the old rows; so the widget never holds more than ten rows. *)
Theorem history_list_keeps_ten_latest entries rows :
  (length rows <= 10)%nat ->
  add_history_items entries rows
  = firstn 10 (rev (map history_row entries) ++ rows) /\
  (length (add_history_items entries rows) <= 10)%nat.
Proof.
  intros L.
  assert (E : add_history_items entries rows
              = firstn 10 (rev (map history_row entries) ++ rows)).
  { revert rows L. induction entries as [|[[t op] img] entries IH];
      intros rows L; simpl.
    - symmetry. apply firstn_all2. exact L.
    - unfold add_history_items in *. simpl fold_left.
      rewrite IH.
      + rewrite (add_history_item_firstn t op img rows L).
        rewrite firstn_app_firstn, <- app_assoc. reflexivity.
      + rewrite (add_history_item_firstn t op img rows L).
        rewrite length_firstn. lia. }
  split; [exact E|]. rewrite E, length_firstn. lia.
Qed.

Lemma history_list_keeps_ten_latest_witness :
  (length (@nil (string * ndarray)) <= 10)%nat /\
  add_history_items
    [("10:00:00", "Encrypted with xor", buf_gray);
     ("10:00:05", "Decrypted with xor", buf_zero)]%string []
  = [("10:00:05 - Decrypted with xor", buf_zero);
     ("10:00:00 - Encrypted with xor", buf_gray)]%string.
Proof.
  assert (L : (length (@nil (string * ndarray)) <= 10)%nat) by (simpl; lia).
  split; [exact L|].
  exact (proj1 (history_list_keeps_ten_latest
                  [("10:00:00", "Encrypted with xor", buf_gray);
                   ("10:00:05", "Decrypted with xor", buf_zero)]%string [] L)).
Defined.

(** ** Encrypt, decrypt and undo *)

Lemma valid_key_in_range key : valid_key key -> key_in_range key = true.
Proof. unfold valid_key, key_in_range. lia. Qed.






Lemma last_snoc {A} (l : list A) x d : List.last (l ++ [x]) d = x.
Proof. apply last_last. Qed.




(** X15: Decrypt pressed before any encryption works on a copy of the
    loaded image: with a key outside [1,255] (or not a number) it stops
    after making that copy the result image; with a valid key it decrypts
    the loaded image and records it in the history as encrypted. *)
Theorem App_decrypt_without_result key_text method t d self a :
  current_image self = Some a -> result_image self = None ->
  pixel_buffer a ->
  let s := App_decrypt key_text method t d self in
  (match key_text with
   | Some key => key_in_range key = false
   | None => True
   end -> s = set_result_image self (Some a)) /\
  (forall key, key_text = Some key -> valid_key key ->
     result_image s = Some (decrypt_pixels a key method) /\
     history s = history self ++ [(a, ("encrypted_" ++ method)%string)]).
Proof.
  intros Hc Hr Ha. cbv zeta. split.
  - intros K. unfold App_decrypt. rewrite Hr, Hc. simpl result_image.
    destruct key_text as [key|]; [|reflexivity]. rewrite K. reflexivity.
  - intros key -> Hk. unfold App_decrypt. rewrite Hr, Hc. simpl result_image.
    rewrite (valid_key_in_range key Hk). simpl negb. cbv iota zeta.
    rewrite (decrypt_image_from_array_pixels a key method Ha Hk).
    destruct d; simpl; auto.
Qed.

Lemma App_decrypt_without_result_witness :
  let self := App_load_image (Ok buf_gray) initial_app in
  current_image self = Some buf_gray /\ result_image self = None /\
  pixel_buffer buf_gray /\
  App_decrypt (Some 300) "xor" "10:00:00" true self
  = set_result_image self (Some buf_gray).
Proof.
  cbv zeta.
  split; [reflexivity|]. split; [reflexivity|].
  split; [apply pixel_buffer_buf_gray|].
  apply (App_decrypt_without_result (Some 300) "xor" "10:00:00" true
           (App_load_image (Ok buf_gray) initial_app)
           buf_gray eq_refl eq_refl pixel_buffer_buf_gray).
  reflexivity.
Defined.

(** ** Loading over a result *)

Lemma result_image_App_load_image opened self :
  result_image (App_load_image opened self) = result_image self /\
  history (App_load_image opened self) = history self /\
  history_list (App_load_image opened self) = history_list self.
Proof. destruct opened; simpl; auto. Qed.

(** X20: loading an image replaces the loaded image only: the result
    image, the history and the history widget stay, and a file that does
    not open changes nothing.  So Decrypt pressed after loading a new
    image decrypts the result that was there before, not the image just
    loaded. *)
Theorem App_load_keeps_result opened key method t d self r :
  result_image self = Some r -> pixel_buffer r -> valid_key key ->
  let s0 := App_load_image opened self in
  result_image s0 = Some r /\ history s0 = history self /\
  history_list s0 = history_list self /\
  (forall image, opened = Ok image -> current_image s0 = Some image) /\
  (forall x, opened = Raise x -> s0 = self) /\
  let s := App_decrypt (Some key) method t d s0 in
  result_image s = Some (decrypt_pixels r key method) /\
  current_image s = current_image s0 /\
  history s = history self ++ [(r, ("encrypted_" ++ method)%string)].
Proof.
  intros Hr Ha Hk. cbv zeta.
  destruct (result_image_App_load_image opened self) as (R & H & L).
  rewrite R, H, L. split; [exact Hr|]. split; [reflexivity|].
  split; [reflexivity|].
  split; [intros image ->; reflexivity|].
  split; [intros x ->; reflexivity|].
  unfold App_decrypt. rewrite R, Hr. cbv iota zeta. rewrite R, Hr.
  rewrite (valid_key_in_range key Hk). simpl negb. cbv iota zeta.
  rewrite (decrypt_image_from_array_pixels r key method Ha Hk).
  destruct d; simpl; rewrite H; auto.
Qed.

Lemma App_load_keeps_result_witness :
  let self :=
    App_encrypt rng_ones (Some 5) "xor" "10:00:00" true
      (App_load_image (Ok buf_gray) initial_app) in
  result_image self = Some (Arr2 1 2 [[2; 205]]) /\
  pixel_buffer (Arr2 1 2 [[2; 205]]) /\ valid_key 5 /\
  result_image
    (App_decrypt (Some 5) "xor" "10:00:05" true
       (App_load_image (Ok buf_zero) self))
  = Some buf_gray.
Proof.
  cbv zeta.
  assert (R : result_image
                (App_encrypt rng_ones (Some 5) "xor" "10:00:00" true
                   (App_load_image (Ok buf_gray) initial_app))
              = Some (Arr2 1 2 [[2; 205]])) by reflexivity.
  assert (P : pixel_buffer (Arr2 1 2 [[2; 205]])).
  { replace (Arr2 1 2 [[2; 205]])
      with (encrypt_pixels rng_ones buf_gray 5 "xor") by reflexivity.
    apply pixel_buffer_encrypt_pixels;
      [apply pixel_buffer_buf_gray|unfold valid_key; lia]. }
  assert (K : valid_key 5) by (unfold valid_key; lia).
  split; [exact R|]. split; [exact P|]. split; [exact K|].
  destruct (App_load_keeps_result (Ok buf_zero) 5 "xor" "10:00:05" true
              _ _ R P K) as (_ & _ & _ & _ & _ & D & _).
  rewrite D. reflexivity.
Defined.

(** ** Integers that are floats *)

Lemma digits2_pos_size p : digits2_pos p = Pos.size p.
Proof. induction p as [p IH|p IH|]; simpl; rewrite ?IH; reflexivity. Qed.

Lemma digits2_pos_bound p n :
  0 <= n -> Zpos p < 2 ^ n -> Zpos (digits2_pos p) <= n.
Proof.
  intros Hn Hp. rewrite digits2_pos_size.
  destruct (Z_le_gt_dec (Zpos (Pos.size p)) n) as [L|G]; [exact L|exfalso].
  pose proof (Pos.size_le p) as S.
  apply Pos2Z.pos_le_pos in S. rewrite Pos2Z.inj_pow in S.
  change (Zpos p~0) with (2 * Zpos p) in S.
  assert (2 ^ (n + 1) <= 2 ^ Zpos (Pos.size p))
    by (apply Z.pow_le_mono_r; lia).
  rewrite Z.pow_add_r in H by lia. lia.
Qed.

Lemma digits2_pos_iter_xO p k :
  Zpos (digits2_pos (Pos.iter xO p k)) = Zpos (digits2_pos p) + Zpos k.
Proof.
  induction k as [|k IH] using Pos.peano_ind.
  - simpl. lia.
  - rewrite Pos.iter_succ. simpl digits2_pos. lia.
Qed.

Lemma binary_round_aux_exact m e :
  Zpos (digits2_pos m) = 53 -> -52 <= e <= 0 ->
  binary_round_aux prec emax false (Zpos m) e loc_Exact = S754_finite false m e.
Proof.
  intros Hd He.
  assert (Hs : fexp prec emax (Zdigits2 (Zpos m) + e) - e = 0).
  { unfold fexp, emin, prec, emax. simpl Zdigits2. lia. }
  unfold binary_round_aux, shr_fexp. rewrite Hs. simpl.
  simpl Zdigits2 in Hs. rewrite Hs. simpl.
  destruct (Z.leb_spec e (emax - prec)) as [_|G]; [reflexivity|].
  unfold emax, prec in G. lia.
Qed.

(** An integer between 1 and 2^53 converts to a positive finite float. *)
Lemma Z2F_finite n :
  0 < n < 2 ^ 53 -> exists m e, Z2F n = S754_finite false m e.
Proof.
  intros [Hn Hb]. destruct n as [|p|p]; try lia.
  pose proof (digits2_pos_bound p 53 ltac:(lia) Hb) as Hd.
  unfold Z2F, binary_normalize, binary_round.
  assert (Hf : fexp prec emax (Zpos (digits2_pos p) + 0)
               = Zpos (digits2_pos p) - 53).
  { unfold fexp, emin, prec, emax. lia. }
  rewrite Hf. unfold shl_align.
  destruct (Zpos (digits2_pos p) - 53 - 0) as [|k|k] eqn:D; try lia.
  - eexists _, _. apply binary_round_aux_exact; lia.
  - eexists _, _. apply binary_round_aux_exact; [|lia].
    rewrite digits2_pos_iter_xO. lia.
Qed.

Lemma fdiv_zero_l n :
  0 < n < 2 ^ 53 -> fdiv (Z2F 0) (Z2F n) = S754_zero false.
Proof.
  intros H. destruct (Z2F_finite n H) as (m & e & ->). reflexivity.
Qed.

(** ** The mean squared error of the metrics *)

Lemma length_concat_uniform {A} (w : nat) (rows : list (list A)) :
  Forall (fun r => length r = w) rows ->
  length (concat rows) = (length rows * w)%nat.
Proof.
  induction 1 as [|r rows Hr _ IH]; simpl; [reflexivity|].
  rewrite length_app, IH, Hr. reflexivity.
Qed.

Lemma length_flatten_pos a :
  pixel_buffer a -> (0 < length (flatten a))%nat.
Proof.
  intros (Hwf & _ & Hm & Hne).
  destruct a as [h w rows|h w c rows]; simpl in Hwf, Hne; unfold flatten.
  - destruct Hwf as [Lh Hw], Hne as [Hh Hw0].
    rewrite (length_concat_uniform w rows Hw). nia.
  - destruct Hwf as [Lh Hw], Hne as [Hh Hw0].
    assert (Hc : (0 < c)%nat) by (destruct c; [discriminate Hm|lia]).
    rewrite (length_concat_uniform (w * c) (map (@concat Z) rows)).
    + rewrite length_map. nia.
    + apply (Forall_map_on
               (fun r => length r = w /\ Forall (fun p => length p = c) r));
        [exact Hw|].
      intros r [Lr Hp]. rewrite (length_concat_uniform c r Hp), Lr.
      reflexivity.
Qed.

Lemma flatten_amap f a : flatten (amap f a) = map f (flatten a).
Proof.
  destruct a as [h w rows|h w c rows]; simpl.
  - symmetry. apply concat_map.
  - rewrite concat_map, !map_map. f_equal.
    apply map_ext. intros r. symmetry. apply concat_map.
Qed.

Lemma Forall_concat {A} (P : A -> Prop) (rows : list (list A)) :
  Forall (Forall P) rows -> Forall P (concat rows).
Proof.
  induction 1 as [|r rows Hr _ IH]; simpl; [constructor|].
  apply Forall_app. split; assumption.
Qed.

Lemma Forall_flatten P a : all_samples P a -> Forall P (flatten a).
Proof.
  destruct a as [h w rows|h w c rows]; simpl; intros H.
  - apply Forall_concat, H.
  - apply Forall_concat.
    apply (Forall_map_on (Forall (Forall P))); [exact H|].
    intros r. apply Forall_concat.
Qed.

Lemma squared_error_term x y :
  wrap8u (wrap8u (x - y) ^ 2) = (x - y) ^ 2 mod 256.
Proof.
  unfold wrap8u. rewrite !Z.pow_2_r.
  rewrite Z.mul_mod_idemp_l, Z.mul_mod_idemp_r by lia. reflexivity.
Qed.

Lemma xor_16_error_term key s :
  valid_key key -> key mod 16 = 0 -> is_u8 s ->
  wrap8u (wrap8u (s - Z.lxor s key) ^ 2) = 0.
Proof.
  intros Hk H16 Hs.
  assert (K : In key (map (fun j => 16 * Z.of_nat j) (seq 1 15))).
  { apply in_map_iff. exists (Z.to_nat (key / 16)).
    unfold valid_key in Hk.
    pose proof (Z.div_mod key 16 ltac:(lia)) as D.
    split; [lia|]. apply in_seq. lia. }
  assert (F : forallb (fun k =>
                forallb (fun s => wrap8u (wrap8u (s - Z.lxor s k) ^ 2) =? 0)
                        bytes)
              (map (fun j => 16 * Z.of_nat j) (seq 1 15)) = true)
    by (vm_compute; reflexivity).
  rewrite forallb_forall in F. specialize (F key K).
  apply Z.eqb_eq.
  exact (byte_forallb _ F s Hs).
Qed.

Lemma Zsum_zero l : Forall (fun x => x = 0) l -> Zsum l = 0.
Proof. induction 1 as [|x l -> _ IH]; simpl; [reflexivity|exact IH]. Qed.

(** X16: the squared error of the metrics is computed in [uint8]: the term
    of two samples is (x - y)^2 mod 256.  So when an image is encrypted
    with xor and a key that is a multiple of 16, every term is 0 and the
    mean squared error shown is 0.0, although the encrypted image differs
    from the original in every sample. *)
Theorem metrics_mse_wraps g a key :
  pixel_buffer a -> valid_key key -> key mod 16 = 0 ->
  Z.of_nat (length (flatten a)) < 2 ^ 53 ->
  (forall x y, wrap8u (wrap8u (x - y) ^ 2) = (x - y) ^ 2 mod 256) /\
  exists e, encrypt_image_from_array g a key "xor" = Ok e /\
            e = amap (fun s => Z.lxor s key) a /\ e <> a /\
            metrics_mse a e = Ok (S754_zero false).
Proof.
  intros Ha Hk H16 Hn. pose proof Ha as (Hwf & Hu8 & _).
  split; [apply squared_error_term|].
  exists (amap (fun s => Z.lxor s key) a).
  split.
  { rewrite (encrypt_image_from_array_pixels g a key _ Ha Hk). f_equal.
    apply encrypt_pixels_xor; assumption. }
  split; [reflexivity|]. split.
  { intros Q. apply amap_fixed_iff in Q.
    destruct (first_sample _ a Ha Q) as [s Hs].
    exact (xor_moves s key Hk Hs). }
  unfold metrics_mse, squared_errors. cbv zeta.
  rewrite flatten_amap. unfold np_subtract_u8.
  rewrite length_map, Nat.eqb_refl. simpl rbind.
  rewrite zip_with_map_r, map_map, length_map.
  f_equal.
  rewrite Zsum_zero.
  - apply fdiv_zero_l. pose proof (length_flatten_pos a Ha). lia.
  - apply (Forall_map_on is_u8); [apply Forall_flatten, Hu8|].
    intros s Hs. apply xor_16_error_term; assumption.
Qed.

Lemma metrics_mse_wraps_witness :
  pixel_buffer buf_rgb /\ valid_key 48 /\ 48 mod 16 = 0 /\
  Z.of_nat (length (flatten buf_rgb)) < 2 ^ 53 /\
  exists e, encrypt_image_from_array rng_ones buf_rgb 48 "xor" = Ok e /\
            e = amap (fun s => Z.lxor s 48) buf_rgb /\ e <> buf_rgb /\
            metrics_mse buf_rgb e = Ok (S754_zero false).
Proof.
  assert (Hk : valid_key 48) by (unfold valid_key; lia).
  assert (H16 : 48 mod 16 = 0) by reflexivity.
  assert (Hn : Z.of_nat (length (flatten buf_rgb)) < 2 ^ 53)
    by (simpl; lia).
  split; [apply pixel_buffer_buf_rgb|]. split; [exact Hk|].
  split; [exact H16|]. split; [exact Hn|].
  exact (proj2 (metrics_mse_wraps rng_ones buf_rgb 48 pixel_buffer_buf_rgb
                  Hk H16 Hn)).
Defined.

(** ** The key strength label *)

Lemma length_pystr_repeat c n :
  0 <= n -> Z.of_nat (length (pystr_repeat c n)) = n.
Proof. intros H. unfold pystr_repeat. rewrite repeat_length. lia. Qed.

(** X17: for a key in [1,255] the strength is min(10, key // 25 + 1),
    between 1 and 10, never decreasing in the key and 10 exactly from 225
    on; the bar always has ten characters, the strength many of them
    full.  A number outside [1,255] leaves the label as it was, so the
    bar of the previous key stays on display. *)
Theorem key_strength_bar_shape key :
  key_in_range key = true ->
  1 <= key_strength_of key <= 10 /\
  (key_strength_of key = 10 <-> 225 <= key) /\
  (forall key', key <= key' -> key_strength_of key <= key_strength_of key') /\
  length (key_strength_bar key) = 10%nat /\
  count_occ N.eq_dec (key_strength_bar key) full_block
  = Z.to_nat (key_strength_of key) /\
  (forall other label,
     key_in_range other = false ->
     update_key_strength (Some other) (update_key_strength (Some key) label)
     = update_key_strength (Some key) label).
Proof.
  unfold key_in_range, key_strength_of. intros Hk.
  assert (H : 1 <= key <= 255) by lia.
  assert (Q : 0 <= key / 25 <= 10).
  { split; [apply Z.div_pos; lia|].
    assert (key / 25 < 11) by (apply Z.div_lt_upper_bound; lia). lia. }
  split; [lia|]. split.
  { split; intros E.
    - assert (9 <= key / 25) by lia.
      pose proof (Z.mul_div_le key 25 ltac:(lia)). lia.
    - assert (9 <= key / 25) by (apply Z.div_le_lower_bound; lia). lia. }
  split.
  { intros key' L. pose proof (Z.div_le_mono key key' 25 ltac:(lia) L). lia. }
  unfold key_strength_bar, key_strength_of, pystr_repeat.
  split; [rewrite length_app, !repeat_length; lia|]. split.
  { rewrite count_occ_app, count_occ_repeat_eq by reflexivity.
    rewrite count_occ_repeat_neq by discriminate. lia. }
  intros other label Ho. unfold update_key_strength at 1.
  unfold key_in_range. rewrite Ho. reflexivity.
Qed.

Lemma key_strength_bar_shape_witness :
  key_in_range 60 = true /\
  1 <= key_strength_of 60 <= 10 /\
  length (key_strength_bar 60) = 10%nat /\
  count_occ N.eq_dec (key_strength_bar 60) full_block = 3%nat.
Proof.
  assert (Hk : key_in_range 60 = true) by reflexivity.
  split; [exact Hk|].
  destruct (key_strength_bar_shape 60 Hk) as (R & _ & _ & L & C & _).
  split; [exact R|]. split; [exact L|exact C].
Defined.

(** ** The batch worker *)

Lemma batch_loop_prefix g key method n files idx :
  let '(images, signals, completed) := batch_loop g key method n idx files in
  (forall i e, nth_error images i = Some e ->
     exists file, nth_error files i = Some file /\
                  file_gives (g (idx + i)%nat) key method file e) /\
  (exists values, signals = map progress values /\
     (length values <= length images <= S (length values))%nat) /\
  (length images <= length files)%nat /\
  (completed = true ->
   length images = length files /\ length signals = length files).
Proof.
  revert idx. induction files as [|file rest IH]; intros idx; simpl.
  - split; [intros [|i] e H; discriminate H|].
    split; [exists []; simpl; auto|]. auto.
  - destruct (opened file) as [pixels|x] eqn:O; simpl rbind.
    2:{ split; [intros [|i] e H; discriminate H|].
        split; [exists []; simpl; split; [reflexivity|lia]|].
        split; [simpl; lia|discriminate]. }
    destruct (encrypt_image_from_array (g idx) pixels key method)
      as [encrypted|x] eqn:E.
    2:{ split; [intros [|i] e H; discriminate H|].
        split; [exists []; simpl; split; [reflexivity|lia]|].
        split; [simpl; lia|discriminate]. }
    destruct (saved_ok file) eqn:Sv.
    2:{ split; [intros [|i] e H; discriminate H|].
        split; [exists []; simpl; split; [reflexivity|lia]|].
        split; [simpl; lia|discriminate]. }
    assert (G : file_gives (g idx) key method file encrypted)
      by (exists pixels; auto).
    destruct (batch_progress idx n) as [p|x].
    2:{ split.
        - intros [|[|i]] e H; try discriminate H.
          injection H as <-. exists file. rewrite Nat.add_0_r. auto.
        - split; [exists []; simpl; split; [reflexivity|lia]|].
          split; [simpl; lia|discriminate]. }
    specialize (IH (S idx)).
    destruct (batch_loop g key method n (S idx) rest)
      as [[images signals] completed].
    destruct IH as (I1 & (values & -> & I2) & I3 & I4).
    split.
    + intros [|i] e H; simpl in H.
      * injection H as <-. exists file. rewrite Nat.add_0_r. auto.
      * destruct (I1 i e H) as (f & Hf & Gf). exists f.
        replace (idx + S i)%nat with (S idx + i)%nat by lia. auto.
    + split; [exists (p :: values); simpl; split; [reflexivity|lia]|].
      split; [simpl; lia|].
      intros C. destruct (I4 C) as [L1 L2]. simpl. lia.
Qed.

(** X18: the images the batch worker saves are encryptions of the first
    files, in order: the i-th saved image is the encryption of the i-th
    file, which opened and was saved, so no file is skipped.  The worker
    emits progress signals and then exactly one last signal, [finished]
    or [error]; every progress signal follows a saved image and at most
    one saved image has none.  [finished] comes only when every file was
    saved.  When the output directory cannot be made nothing is saved and
    [error] is the only signal. *)
Theorem batch_saves_a_prefix g key method makedirs_ok files :
  let '(images, signals) :=
    BatchProcessWorker_run g key method makedirs_ok files in
  (forall i e, nth_error images i = Some e ->
     exists file, nth_error files i = Some file /\
                  file_gives (g i) key method file e) /\
  (length images <= length files)%nat /\
  (exists values,
     signals = map progress values ++ [last_signal signals] /\
     (last_signal signals = finished (length files) \/
      last_signal signals = error) /\
     (length values <= length images <= S (length values))%nat) /\
  (last_signal signals = finished (length files) ->
   length images = length files /\ length signals = S (length files)) /\
  (makedirs_ok = false -> images = [] /\ signals = [error]).
Proof.
  unfold BatchProcessWorker_run. destruct makedirs_ok.
  - pose proof (batch_loop_prefix g key method (length files) files 0) as H.
    destruct (batch_loop g key method (length files) 0 files)
      as [[images signals] completed].
    destruct H as (I1 & (values & -> & I2) & I3 & I4).
    unfold last_signal. rewrite last_last.
    split; [exact I1|]. split; [exact I3|]. split.
    + exists values. split; [reflexivity|].
      split; [destruct completed; auto|exact I2].
    + split; [|discriminate].
      destruct completed; [|discriminate]. intros _.
      destruct (I4 eq_refl) as [L1 L2].
      split; [exact L1|]. rewrite length_app, L2. simpl. lia.
  - split; [intros [|i] e H; discriminate H|].
    split; [simpl; lia|]. split.
    + exists []. simpl. split; [reflexivity|]. split; [auto|lia].
    + split; [discriminate|auto].
Qed.

Lemma progress_cases_all idx n :
  (idx < n <= 100)%nat -> In (idx, n) (progress_cases 100).
Proof.
  intros H. unfold progress_cases. apply in_flat_map.
  exists n. split; [apply in_seq; lia|].
  apply in_map_iff. exists idx. split; [reflexivity|apply in_seq; lia].
Qed.

(** X19: in a batch of at most 100 files, the progress value emitted
    after each file is the exact percentage rounded down or one less
    (the float division and product can fall just below an integer: the
    29th of 100 files gives 28); it never decreases, stays within
    [0,100] and is 100 after the last file. *)
Theorem batch_progress_close idx n :
  (idx < n <= 100)%nat ->
  exists p, batch_progress idx n = Ok p /\
    (p = 100 * (Z.of_nat idx + 1) / Z.of_nat n \/
     p = 100 * (Z.of_nat idx + 1) / Z.of_nat n - 1) /\
    0 <= p <= 100 /\
    (S idx = n -> p = 100) /\
    ((S idx < n)%nat ->
     exists q, batch_progress (S idx) n = Ok q /\ p <= q) /\
    batch_progress 28 100 = Ok 28.
Proof.
  intros H.
  assert (F : forallb progress_case_ok (progress_cases 100) = true)
    by (vm_compute; reflexivity).
  rewrite forallb_forall in F.
  specialize (F (idx, n) (progress_cases_all idx n H)).
  unfold progress_case_ok in F.
  destruct (batch_progress idx n) as [p|x]; [|discriminate F].
  apply andb_true_iff in F as [F F3]. apply andb_true_iff in F as [F1 F2].
  exists p. split; [reflexivity|].
  assert (E : p = 100 * (Z.of_nat idx + 1) / Z.of_nat n \/
              p = 100 * (Z.of_nat idx + 1) / Z.of_nat n - 1)
    by (apply orb_true_iff in F1 as [F1|F1]; apply Z.eqb_eq in F1; auto).
  split; [exact E|].
  assert (B : 0 < 100 * (Z.of_nat idx + 1) / Z.of_nat n <= 100).
  { split.
    - apply Z.div_str_pos. lia.
    - apply Z.div_le_upper_bound; lia. }
  assert (L : S idx = n -> p = 100).
  { intros Q. apply Nat.eqb_eq in Q. rewrite Q in F2.
    apply Z.eqb_eq. exact F2. }
  split; [lia|]. split; [exact L|]. split.
  - intros Lt.
    destruct (batch_progress (S idx) n) as [q|x].
    + exists q. split; [reflexivity|].
      apply orb_true_iff in F3 as [F3|F3].
      * apply Nat.eqb_eq in F3. lia.
      * apply Z.leb_le. exact F3.
    + apply Nat.eqb_eq in F3. lia.
  - vm_compute. reflexivity.
Qed.

Lemma batch_progress_close_witness :
  (56 < 100 <= 100)%nat /\ batch_progress 56 100 = Ok 56.
Proof.
  assert (H : (56 < 100 <= 100)%nat) by lia.
  split; [exact H|].
  destruct (batch_progress_close 56 100 H) as (p & E & _).
  rewrite E. f_equal.
  assert (Q : batch_progress 56 100 = Ok 56) by (vm_compute; reflexivity).
  rewrite Q in E. injection E as <-. reflexivity.
Defined.
